(** * ethsignal: WebRTC signalling over an Ethereum event log

    A shallow embedding of the [SignalServer] contract and of the JavaScript
    client SDK ([SignalServerSdk], [RequestForHelp], [DataStream]), with the
    properties of the negotiation layer proved over it.

    The JavaScript code is event driven: every [await] is a point where the
    function is suspended until an external collaborator (the WebRTC engine,
    the cipher, the ledger, a timer) completes.  Each async function is
    therefore embedded as a state machine whose states are its await points
    and whose inputs are the completions; a run is a list of such inputs. *)

From Stdlib Require Import ZArith NArith List String Ascii Bool Lia Sorted.
From Stdlib Require Import Init.Byte.
From stdpp Require Import base option list gmap strings.

Local Open Scope string_scope.
Local Open Scope list_scope.

(** ** The relay contract, [SignalServer.sol] *)

Module SignalServer.

(** A Solidity [address] is a 160-bit unsigned integer; [address(0)] is [0]. *)
Definition address := N.

Definition bytes := list byte.

(** [event SignalSent(address indexed sender, address indexed recipient,
    bytes encryptedData)]. *)
Record SignalSent := {
  sender : address;
  recipient : address;
  encryptedData : bytes
}.

(** The contract declares no state variable: its storage is empty. *)
Definition Storage := unit.

(** The outcome of a transaction: a revert with the [require] message (the
    storage is rolled back and nothing is logged), or success with the new
    storage and the events emitted. *)
Inductive receipt :=
| Reverted (reason : string)
| Succeeded (st : Storage) (logs : list SignalSent).

(** [function sendSignal(address _recipient, bytes calldata _encryptedData)]
    called by [msg_sender]. *)
Definition sendSignal (st : Storage) (msg_sender : address)
    (_recipient : address) (_encryptedData : bytes) : receipt :=
  if (_recipient =? 0)%N then
    Reverted "SignalServer: Recipient cannot be zero address"
  else if (0 <? length _encryptedData)%nat then
    Succeeded st [ {| sender := msg_sender;
                      recipient := _recipient;
                      encryptedData := _encryptedData |} ]
  else
    Reverted "SignalServer: Encrypted data cannot be empty".

Definition reverted (r : receipt) : Prop :=
  match r with Reverted _ => True | Succeeded _ _ => False end.

End SignalServer.

(** ** Base64, as [Buffer] encodes and decodes it *)

Module Base64.

Definition alphabet : list ascii :=
  list_ascii_of_string
    "ABCDEFGHIJKLMNOPQRSTUVWXYZabcdefghijklmnopqrstuvwxyz0123456789+/".

Definition pad : ascii := "="%char.

(** The character of a 6-bit value. *)
Definition char_of (n : N) : ascii := nth (N.to_nat n) alphabet pad.

Fixpoint index_of (c : ascii) (l : list ascii) (i : N) : option N :=
  match l with
  | [] => None
  | x :: l' => if Ascii.eqb c x then Some i else index_of c l' (N.succ i)
  end.

(** The 6-bit value of a character; the decoder also reads the URL-safe
    [-] and [_]. *)
Definition value_of (c : ascii) : option N :=
  if Ascii.eqb c "-" then Some 62%N
  else if Ascii.eqb c "_" then Some 63%N
  else index_of c alphabet 0.

(** [buf.toString("base64")]: three bytes give four characters, the last
    group is padded with [=]. *)
Fixpoint encode_N (l : list N) : list ascii :=
  match l with
  | [] => []
  | [a] => [char_of (a / 4); char_of ((a mod 4) * 16); pad; pad]
  | [a; b] =>
      [char_of (a / 4); char_of ((a mod 4) * 16 + b / 16);
       char_of ((b mod 16) * 4); pad]
  | a :: b :: c :: rest =>
      char_of (a / 4) :: char_of ((a mod 4) * 16 + b / 16)
      :: char_of ((b mod 16) * 4 + c / 64) :: char_of (c mod 64)
      :: encode_N rest
  end%N.

Definition encode (buf : list byte) : string :=
  string_of_list_ascii (encode_N (map Byte.to_N buf)).

(** [Buffer.from(s, "base64")] is lenient: characters outside the alphabet
    are skipped and decoding stops at the first [=]. *)
Fixpoint sextets (s : list ascii) : list N :=
  match s with
  | [] => []
  | c :: s' =>
      if Ascii.eqb c pad then []
      else match value_of c with
           | Some v => v :: sextets s'
           | None => sextets s'
           end
  end.

Fixpoint decode_N (l : list N) : list N :=
  match l with
  | s1 :: s2 :: s3 :: s4 :: rest =>
      (s1 * 4 + s2 / 16) :: ((s2 mod 16) * 16 + s3 / 4)
      :: ((s3 mod 4) * 64 + s4) :: decode_N rest
  | [s1; s2; s3] => [s1 * 4 + s2 / 16; (s2 mod 16) * 16 + s3 / 4]
  | [s1; s2] => [s1 * 4 + s2 / 16]
  | _ => []
  end%N.

(** A value stored into a [Uint8Array] cell. *)
Definition to_uint8 (n : N) : byte :=
  match Byte.of_N (n mod 256) with Some b => b | None => x00 end.

Definition decode (s : string) : list byte :=
  map to_uint8 (decode_N (sextets (list_ascii_of_string s))).

End Base64.

(** ** JSON texts, as [JSON.stringify] writes and [JSON.parse] reads them

    JavaScript strings are modelled as strings of 8-bit characters.  The
    values are those a [DataStream] payload is made of: strings, booleans
    and [null], inside one flat object. *)

Module Json.

Definition dquote : ascii := "034"%char.
Definition backslash : ascii := "\"%char.

Inductive value :=
| JNull
| JBool (b : bool)
| JString (s : string).

(** [if (v)]: ToBoolean. *)
Definition truthy (v : value) : bool :=
  match v with
  | JNull => false
  | JBool b => b
  | JString s => negb (String.eqb s EmptyString)
  end.

Definition hex_digit (n : N) : ascii :=
  nth (N.to_nat n) (list_ascii_of_string "0123456789abcdef") "0"%char.

Definition hex_value (c : ascii) : option N :=
  let n := N_of_ascii c in
  if ((48 <=? n) && (n <=? 57))%N then Some (n - 48)%N
  else if ((97 <=? n) && (n <=? 102))%N then Some (n - 87)%N
  else if ((65 <=? n) && (n <=? 70))%N then Some (n - 55)%N
  else None.

(** QuoteJSONString, one character: the two-character escapes, [\u00XX]
    for the other control characters, the character itself otherwise. *)
Definition escape (c : ascii) : list ascii :=
  let n := N_of_ascii c in
  if (n =? 8)%N then [backslash; "b"%char]
  else if (n =? 9)%N then [backslash; "t"%char]
  else if (n =? 10)%N then [backslash; "n"%char]
  else if (n =? 12)%N then [backslash; "f"%char]
  else if (n =? 13)%N then [backslash; "r"%char]
  else if (n =? 34)%N then [backslash; dquote]
  else if (n =? 92)%N then [backslash; backslash]
  else if (n <? 32)%N then
    [backslash; "u"%char; "0"%char; "0"%char;
     hex_digit (n / 16); hex_digit (n mod 16)]
  else [c].

Definition quote (s : string) : list ascii :=
  dquote :: flat_map escape (list_ascii_of_string s) ++ [dquote].

Definition stringify_value (v : value) : list ascii :=
  match v with
  | JNull => list_ascii_of_string "null"
  | JBool true => list_ascii_of_string "true"
  | JBool false => list_ascii_of_string "false"
  | JString s => quote s
  end.

Definition stringify_member (kv : string * value) : list ascii :=
  quote (fst kv) ++ ":"%char :: stringify_value (snd kv).

Fixpoint stringify_members (l : list (string * value)) : list ascii :=
  match l with
  | [] => []
  | [kv] => stringify_member kv
  | kv :: l' => stringify_member kv ++ ","%char :: stringify_members l'
  end.

(** [JSON.stringify(o)] of an object whose own properties are, in insertion
    order, [members]. *)
Definition stringify (members : list (string * value)) : string :=
  string_of_list_ascii
    ("{"%char :: stringify_members members ++ ["}"%char]).

(** *** Reading *)

Definition is_ws (c : ascii) : bool :=
  let n := N_of_ascii c in
  ((n =? 32) || (n =? 9) || (n =? 10) || (n =? 13))%N.

Fixpoint skip_ws (s : list ascii) : list ascii :=
  match s with
  | c :: s' => if is_ws c then skip_ws s' else s
  | [] => []
  end.

Definition expect (c : ascii) (s : list ascii) : option (list ascii) :=
  match s with
  | x :: s' => if Ascii.eqb x c then Some s' else None
  | [] => None
  end.

Fixpoint strip_prefix (p s : list ascii) : option (list ascii) :=
  match p, s with
  | [], _ => Some s
  | a :: p', b :: s' => if Ascii.eqb a b then strip_prefix p' s' else None
  | _ :: _, [] => None
  end.

(** The character a two-character escape stands for. *)
Definition unescape (e : ascii) : option ascii :=
  if Ascii.eqb e dquote then Some dquote
  else if Ascii.eqb e backslash then Some backslash
  else if Ascii.eqb e "/" then Some "/"%char
  else if Ascii.eqb e "b" then Some (ascii_of_N 8)
  else if Ascii.eqb e "f" then Some (ascii_of_N 12)
  else if Ascii.eqb e "n" then Some (ascii_of_N 10)
  else if Ascii.eqb e "r" then Some (ascii_of_N 13)
  else if Ascii.eqb e "t" then Some (ascii_of_N 9)
  else None.

Definition hex4 (h1 h2 h3 h4 : ascii) : option N :=
  match hex_value h1, hex_value h2, hex_value h3, hex_value h4 with
  | Some a, Some b, Some c, Some d => Some (((a * 16 + b) * 16 + c) * 16 + d)%N
  | _, _, _, _ => None
  end.

Definition cons_fst (c : ascii) (r : list ascii * list ascii) :
    list ascii * list ascii :=
  (c :: fst r, snd r).

(** The characters of a string literal after its opening quote, up to the
    closing one, and the text that follows.  A raw control character, a bad
    escape and the end of the text are syntax errors; so is, in this 8-bit
    model, a [\u] escape above code 255. *)
Fixpoint parse_chars (s : list ascii) : option (list ascii * list ascii) :=
  match s with
  | [] => None
  | c :: s1 =>
      if Ascii.eqb c dquote then Some ([], s1)
      else if Ascii.eqb c backslash then
        match s1 with
        | [] => None
        | e :: s2 =>
            if Ascii.eqb e "u" then
              match s2 with
              | h1 :: h2 :: h3 :: h4 :: s3 =>
                  match hex4 h1 h2 h3 h4 with
                  | Some n =>
                      if (n <? 256)%N
                      then cons_fst (ascii_of_N n) <$> parse_chars s3
                      else None
                  | None => None
                  end
              | _ => None
              end
            else
              match unescape e with
              | Some c' => cons_fst c' <$> parse_chars s2
              | None => None
              end
        end
      else if (N_of_ascii c <? 32)%N then None
      else cons_fst c <$> parse_chars s1
  end.

Definition parse_string (s : list ascii) : option (string * list ascii) :=
  s1 ← expect dquote s;
  r ← parse_chars s1;
  Some (string_of_list_ascii (fst r), snd r).

Definition parse_value (s : list ascii) : option (value * list ascii) :=
  match strip_prefix (list_ascii_of_string "null") s with
  | Some rest => Some (JNull, rest)
  | None =>
  match strip_prefix (list_ascii_of_string "true") s with
  | Some rest => Some (JBool true, rest)
  | None =>
  match strip_prefix (list_ascii_of_string "false") s with
  | Some rest => Some (JBool false, rest)
  | None => r ← parse_string s; Some (JString (fst r), snd r)
  end end end.

(** The members of an object after its opening brace: [fuel] bounds their
    number.  A repeated key keeps its last value. *)
Fixpoint parse_members (fuel : nat) (acc : gmap string value)
    (s : list ascii) : option (gmap string value * list ascii) :=
  match fuel with
  | O => None
  | S fuel' =>
      k ← parse_string (skip_ws s);
      s2 ← expect ":"%char (skip_ws (snd k));
      v ← parse_value (skip_ws s2);
      let acc' := <[fst k := fst v]> acc in
      let s3 := skip_ws (snd v) in
      match expect ","%char s3 with
      | Some s4 => parse_members fuel' acc' s4
      | None => s5 ← expect "}"%char s3; Some (acc', s5)
      end
  end.

Definition at_end (s : list ascii) : bool :=
  match skip_ws s with [] => true | _ :: _ => false end.

(** [JSON.parse(text)] on the texts that are one flat object: [None] is a
    [SyntaxError] (or a text outside this fragment). *)
Definition parse (text : string) : option (gmap string value) :=
  s1 ← expect "{"%char (skip_ws (list_ascii_of_string text));
  match expect "}"%char (skip_ws s1) with
  | Some rest => if at_end rest then Some ∅ else None
  | None =>
      r ← parse_members (length s1) ∅ s1;
      if at_end (snd r) then Some (fst r) else None
  end.

End Json.

(** ** [DataStream]: the [{ message, file? }] payloads of an open channel *)

Module DataStream.

(** An application callback, by identity.  Callbacks belong to the
    application: an invocation is recorded and taken to return normally. *)
Definition Callback := nat.

Record t := {
  remoteAddress : string;
  _messageHandlers : list Callback;
  _fileHandlers : list Callback
}.

(** [new DataStream(remoteAddress, dataChannel)]. *)
Definition new (addr : string) : t :=
  {| remoteAddress := addr; _messageHandlers := []; _fileHandlers := [] |}.

(** [onMessage(cb)] and [onFile(cb)] push the callback. *)
Definition onMessage (cb : Callback) (ds : t) : t :=
  {| remoteAddress := remoteAddress ds;
     _messageHandlers := _messageHandlers ds ++ [cb];
     _fileHandlers := _fileHandlers ds |}.

Definition onFile (cb : Callback) (ds : t) : t :=
  {| remoteAddress := remoteAddress ds;
     _messageHandlers := _messageHandlers ds;
     _fileHandlers := _fileHandlers ds ++ [cb] |}.

(** What a handler was called with. *)
Inductive call :=
| MessageCall (cb : Callback) (message : Json.value)
| FileCall (cb : Callback) (buf : list byte).

(** [respond(message, file)]: the text handed to [this._dc.send].  [file]
    is [None] when the argument is omitted; a [Uint8Array], even an empty
    one, is truthy. *)
Definition respond (message : string) (file : option (list byte)) : string :=
  let p := [("message", Json.JString message)] in
  let p :=
    match file with
    | Some f => p ++ [("file", Json.JString (Base64.encode f))]
    | None => p
    end in
  Json.stringify p.

(** [this._dc.onmessage] on [ev.data]: the handler calls made, in order.  A
    text that does not parse ends in the [catch] branch (a warning, no
    call). *)
Definition onmessage (ds : t) (data : string) : list call :=
  match Json.parse data with
  | None => []
  | Some obj =>
      let calls :=
        match obj !! "message" with
        | None | Some Json.JNull => []
        | Some message =>
            map (fun cb => MessageCall cb message) (_messageHandlers ds)
        end in
      match obj !! "file" with
      | Some (Json.JString file) =>
          if Json.truthy (Json.JString file)
          then calls ++ map (fun cb => FileCall cb (Base64.decode file))
                            (_fileHandlers ds)
          else calls
      | Some (Json.JBool true) =>
          (* Buffer.from(true, "base64") throws a TypeError, caught *)
          calls
      | _ => calls
      end
  end.

End DataStream.

(** ** The SDK: shared data *)

Abbreviation Address := string (only parsing).
Abbreviation PublicKey := string (only parsing).
Abbreviation PrivateKey := string (only parsing).
Abbreviation Bytes := (list byte) (only parsing).
Abbreviation Callback := DataStream.Callback (only parsing).

(** An [RTCIceCandidateInit], kept opaque. *)
Abbreviation Candidate := string (only parsing).

(** An [RTCSessionDescriptionInit]: [{ type, sdp }]. *)
Record Description := {
  d_type : string;
  d_sdp : string
}.

(** The plaintext envelope [{ type, sdp, candidates }] that is serialised,
    encrypted whole and sent through the relay. *)
Record Envelope := {
  e_type : string;
  e_sdp : string;
  e_candidates : list Candidate
}.

Inductive Error :=
| HelpResponseTimeout              (* new Error("HelpResponseTimeout") *)
| NoPublicKeyForPeer (addr : Address)
    (* new Error(`SignalServerSdk: no public key for peer ${addr}`) *)
| PeerPublicKeysRequired
    (* new Error("SignalServerSdk: peerPublicKeys map is required") *)
| TypeError (what : string)
| DecryptionError                  (* the payload does not open *)
| SyntaxError                      (* JSON.parse on the plaintext *)
| EngineError (e : string)         (* a rejection of the WebRTC engine *)
| CipherError (e : string)         (* a rejection of encryptWithPublicKey *)
| SubmissionError (e : string).    (* sendSignal or tx.wait rejected *)

(** The collaborators whose results are functions of their input.
    [open_payload key data] is [ethers.toUtf8String], [EthCrypto.cipher.parse]
    and [EthCrypto.decryptWithPrivateKey] in sequence, [None] when one of
    them throws; [parse_envelope] is [JSON.parse] on the plaintext, [None] on
    a [SyntaxError].  Encryption is randomised: its result is an input of
    the run. *)
Record Codec := {
  open_payload : PrivateKey -> Bytes -> option string;
  parse_envelope : string -> option Envelope
}.

(** The fields of a [SignalServerSdk] instance that the code reads. *)
Record Sdk := {
  wallet_address : Address;          (* this.wallet.address *)
  identity : option PrivateKey;      (* this.identity, its privateKey *)
  peerPublicKeys : gmap Address PublicKey;
  timeoutMs : N;
  _helpCb : option Callback;
  _streamCb : option Callback
}.

(** [_getPeerPubKey(addr)]: the key, or a throw when the entry is missing or
    falsy (the empty string).  The directory is a plain object keyed by
    address. *)
Definition _getPeerPubKey (sdk : Sdk) (addr : Address) : Error + PublicKey :=
  match peerPublicKeys sdk !! addr with
  | Some pk =>
      if String.eqb pk EmptyString then inl (NoPublicKeyForPeer addr)
      else inr pk
  | None => inl (NoPublicKeyForPeer addr)
  end.

(** [iceGatheringState] of an [RTCPeerConnection]. *)
Inductive GatheringState := GatheringNew | Gathering | GatheringComplete.

(** What the code reads of its [RTCPeerConnection].  The engine is taken
    to hold the descriptions and candidates as they were given to it, once
    the call that gave them has resolved. *)
Record PeerConnection := {
  localDescription : option Description;
  remoteDescription : option Description;
  remoteCandidates : list Candidate;
  iceGatheringState : GatheringState
}.

Definition new_pc : PeerConnection :=
  {| localDescription := None; remoteDescription := None;
     remoteCandidates := []; iceGatheringState := GatheringNew |}.

Definition set_local (d : Description) (pc : PeerConnection) :=
  {| localDescription := Some d; remoteDescription := remoteDescription pc;
     remoteCandidates := remoteCandidates pc;
     iceGatheringState := iceGatheringState pc |}.

Definition set_remote (d : Description) (pc : PeerConnection) :=
  {| localDescription := localDescription pc; remoteDescription := Some d;
     remoteCandidates := remoteCandidates pc;
     iceGatheringState := iceGatheringState pc |}.

Definition add_remote_candidate (c : Candidate) (pc : PeerConnection) :=
  {| localDescription := localDescription pc;
     remoteDescription := remoteDescription pc;
     remoteCandidates := remoteCandidates pc ++ [c];
     iceGatheringState := iceGatheringState pc |}.

Definition set_gathering (s : GatheringState) (pc : PeerConnection) :=
  {| localDescription := localDescription pc;
     remoteDescription := remoteDescription pc;
     remoteCandidates := remoteCandidates pc;
     iceGatheringState := s |}.

Definition gathering_complete (pc : PeerConnection) : bool :=
  match iceGatheringState pc with GatheringComplete => true | _ => false end.

(** [pc.localDescription.sdp]. *)
Definition local_sdp (pc : PeerConnection) : Error + string :=
  match localDescription pc with
  | Some d => inr (d_sdp d)
  | None => inl (TypeError "pc.localDescription is null")
  end.

(** The inputs of a run: completions of the collaborators' asynchronous
    operations, events they raise, and timer expiry. *)
Inductive Event :=
(* the WebRTC engine *)
| CreateOfferDone (offer : Description)
| CreateOfferFailed (e : string)
| CreateAnswerDone (answer : Description)
| CreateAnswerFailed (e : string)
| SetLocalDescriptionDone
| SetLocalDescriptionFailed (e : string)
| SetRemoteDescriptionDone
| SetRemoteDescriptionFailed (e : string)
| AddIceCandidateDone
| AddIceCandidateFailed (e : string)
| IceCandidate (c : option Candidate)        (* pc.onicecandidate *)
| IceGatheringStateChange (s : GatheringState)
| DataChannelOpen                            (* dc.onopen *)
(* the cipher *)
| EncryptDone (data : Bytes)
| EncryptFailed (e : string)
| DecryptSettled
(* the relay *)
| SendSignalDone                             (* sendSignal gave a tx *)
| SendSignalFailed (e : string)
| TxWaitDone                                 (* tx.wait() resolved *)
| TxWaitFailed (e : string)
| SignalSent (sender recipient : Address) (encryptedData : option Bytes)
(* setTimeout *)
| TimerExpired.

(** The calls the code makes to its collaborators, in the order made. *)
Inductive Action :=
| CallCreateDataChannel
| CallCreateOffer
| CallCreateAnswer
| CallSetLocalDescription (d : Description)
| CallSetRemoteDescription (d : Description)
| CallAddIceCandidate (c : Candidate)
| CallEncrypt (key : PublicKey) (envelope : Envelope)
| CallEncryptCandidate (key : PublicKey) (candidateObj : Candidate)
| CallSendSignal (to : Address) (data : Bytes)
| CallTxWait
| CallNotifyStreamOpen (remote : Address).

Definition is_submission (a : Action) : bool :=
  match a with CallSendSignal _ _ => true | _ => false end.

(** The relay submissions among the calls made. *)
Definition submissions (l : list Action) : list Action :=
  List.filter is_submission l.

(** ** [_sendSignal(to, descObj)] *)

(** Where a call of [_sendSignal] stands: at one of its three awaits,
    returned, or thrown. *)
Inductive SendState :=
| Encrypting        (* await EthCrypto.encryptWithPublicKey(...) *)
| Submitting        (* await this.contractWithSigner.sendSignal(to, data) *)
| Confirming        (* await tx.wait() *)
| Sent
| SendThrew (e : Error).

(** The call up to its first await.  [_getPeerPubKey] is evaluated before
    the cipher is called: an unknown peer throws and nothing is
    encrypted. *)
Definition _sendSignal (sdk : Sdk) (to : Address) (descObj : Envelope)
    : SendState * list Action :=
  match _getPeerPubKey sdk to with
  | inl e => (SendThrew e, [])
  | inr pk => (Encrypting, [CallEncrypt pk descObj])
  end.

(** [_sendCandidate(to, candidateObj)] up to its first await; its awaits
    are those of [_sendSignal]. *)
Definition _sendCandidate (sdk : Sdk) (to : Address) (candidateObj : Candidate)
    : SendState * list Action :=
  match _getPeerPubKey sdk to with
  | inl e => (SendThrew e, [])
  | inr pk => (Encrypting, [CallEncryptCandidate pk candidateObj])
  end.

(** The call resumed by a completion. *)
Definition send_step (to : Address) (s : SendState) (ev : Event)
    : SendState * list Action :=
  match s, ev with
  | Encrypting, EncryptDone data => (Submitting, [CallSendSignal to data])
  | Encrypting, EncryptFailed e => (SendThrew (CipherError e), [])
  | Submitting, SendSignalDone => (Confirming, [CallTxWait])
  | Submitting, SendSignalFailed e => (SendThrew (SubmissionError e), [])
  | Confirming, TxWaitDone => (Sent, [])
  | Confirming, TxWaitFailed e => (SendThrew (SubmissionError e), [])
  | _, _ => (s, [])
  end.

(** Reading a delivered payload: [this.identity.privateKey], then opening,
    then [JSON.parse].  The parts of it that run before the await of
    [decryptWithPrivateKey] and the parts that run after are read together
    when the decryption settles; a throw in either ends the listener's
    call. *)
Definition read_payload (codec : Codec) (sdk : Sdk) (data : Bytes)
    : Error + Envelope :=
  match identity sdk with
  | None => inl (TypeError "this.identity is undefined")
  | Some key =>
      match open_payload codec key data with
      | None => inl DecryptionError
      | Some plaintext =>
          match parse_envelope codec plaintext with
          | None => inl SyntaxError
          | Some msg => inr msg
          end
      end
  end.

(** ** [requestHelp(toAddr)]: an outbound attempt *)

Module Outbound.

(** Where [requestHelp] is suspended. *)
Inductive Control :=
| AwaitCreateOffer                             (* await pc.createOffer() *)
| AwaitSetLocalDescription (offer : Description)
| AwaitIceGathering (offer : Description)      (* the gathering promise *)
| AwaitSendSignal (s : SendState)              (* await this._sendSignal *)
| Returned                                     (* return p2pPromise *)
| Threw (e : Error).

Inductive Settlement :=
| Resolved (stream : DataStream.t)
| Rejected (e : Error).

(** The one-shot registration [contract.once(filter, onAnswer)]. *)
Inductive Subscription := NotSubscribed | Subscribed | Unsubscribed.

Inductive Timer := TimerUnset | TimerArmed | TimerFired.

(** Where the call of [onAnswer] is suspended. *)
Inductive AnswerControl :=
| AnswerDecrypting (enc : Bytes)
| AnswerSetRemoteDescription (msgAnswer : Envelope)
| AnswerAddIceCandidate (c : Candidate) (rest : list Candidate)
| AnswerReturned
| AnswerThrew (e : Error).

Record t := {
  toAddr : Address;
  pc : PeerConnection;
  candidates : list Candidate;       (* const candidates = [] *)
  control : Control;
  p2pPromise : option Settlement;    (* None: pending *)
  subscription : Subscription;
  timer : Timer;
  onAnswer : option AnswerControl;   (* the call of onAnswer, once made *)
  actions : list Action;
  delivered : list Settlement
    (* the settlements of the promise requestHelp returned, as they reach
       the caller *)
}.

Definition with_pc (x : PeerConnection) (o : t) : t :=
  {| toAddr := toAddr o; pc := x; candidates := candidates o;
     control := control o; p2pPromise := p2pPromise o;
     subscription := subscription o; timer := timer o;
     onAnswer := onAnswer o; actions := actions o;
     delivered := delivered o |}.

Definition with_candidates (x : list Candidate) (o : t) : t :=
  {| toAddr := toAddr o; pc := pc o; candidates := x;
     control := control o; p2pPromise := p2pPromise o;
     subscription := subscription o; timer := timer o;
     onAnswer := onAnswer o; actions := actions o;
     delivered := delivered o |}.

Definition with_control (x : Control) (o : t) : t :=
  {| toAddr := toAddr o; pc := pc o; candidates := candidates o;
     control := x; p2pPromise := p2pPromise o;
     subscription := subscription o; timer := timer o;
     onAnswer := onAnswer o; actions := actions o;
     delivered := delivered o |}.

Definition with_p2pPromise (x : option Settlement) (o : t) : t :=
  {| toAddr := toAddr o; pc := pc o; candidates := candidates o;
     control := control o; p2pPromise := x;
     subscription := subscription o; timer := timer o;
     onAnswer := onAnswer o; actions := actions o;
     delivered := delivered o |}.

Definition with_subscription (x : Subscription) (o : t) : t :=
  {| toAddr := toAddr o; pc := pc o; candidates := candidates o;
     control := control o; p2pPromise := p2pPromise o;
     subscription := x; timer := timer o;
     onAnswer := onAnswer o; actions := actions o;
     delivered := delivered o |}.

Definition with_timer (x : Timer) (o : t) : t :=
  {| toAddr := toAddr o; pc := pc o; candidates := candidates o;
     control := control o; p2pPromise := p2pPromise o;
     subscription := subscription o; timer := x;
     onAnswer := onAnswer o; actions := actions o;
     delivered := delivered o |}.

Definition with_onAnswer (x : AnswerControl) (o : t) : t :=
  {| toAddr := toAddr o; pc := pc o; candidates := candidates o;
     control := control o; p2pPromise := p2pPromise o;
     subscription := subscription o; timer := timer o;
     onAnswer := Some x; actions := actions o;
     delivered := delivered o |}.

Definition call (l : list Action) (o : t) : t :=
  {| toAddr := toAddr o; pc := pc o; candidates := candidates o;
     control := control o; p2pPromise := p2pPromise o;
     subscription := subscription o; timer := timer o;
     onAnswer := onAnswer o; actions := actions o ++ l;
     delivered := delivered o |}.

Definition deliver (r : Settlement) (o : t) : t :=
  {| toAddr := toAddr o; pc := pc o; candidates := candidates o;
     control := control o; p2pPromise := p2pPromise o;
     subscription := subscription o; timer := timer o;
     onAnswer := onAnswer o; actions := actions o;
     delivered := delivered o ++ [r] |}.

(** An exception inside the async function rejects the promise it
    returned. *)
Definition throw (e : Error) (o : t) : t :=
  deliver (Rejected e) (with_control (Threw e) o).

(** [resolveStream] and [rejectStream]: the first call settles
    [p2pPromise], a later one does nothing.  The caller is told once
    [requestHelp] has returned that promise. *)
Definition settle (r : Settlement) (o : t) : t :=
  match p2pPromise o with
  | Some _ => o
  | None =>
      let o' := with_p2pPromise (Some r) o in
      match control o with
      | Returned => deliver r o'
      | _ => o'
      end
  end.

(** [return p2pPromise]. *)
Definition return_p2pPromise (o : t) : t :=
  let o' := with_control Returned o in
  match p2pPromise o with
  | Some r => deliver r o'
  | None => o'
  end.

(** After [await this._sendSignal(...)]: [contract.once(filter, onAnswer)],
    [setTimeout(..., this.timeoutMs)], [return p2pPromise]. *)
Definition after_send (s : SendState) (o : t) : t :=
  match s with
  | SendThrew e => throw e o
  | Sent =>
      return_p2pPromise (with_timer TimerArmed (with_subscription Subscribed o))
  | Encrypting | Submitting | Confirming => with_control (AwaitSendSignal s) o
  end.

(** "bundle and send one tx". *)
Definition begin_send (sdk : Sdk) (offer : Description) (o : t) : t :=
  match local_sdp (pc o) with
  | inl e => throw e o
  | inr sdp =>
      let descObj :=
        {| e_type := d_type offer; e_sdp := sdp;
           e_candidates := candidates o |} in
      let r := _sendSignal sdk (toAddr o) descObj in
      after_send (fst r) (call (snd r) o)
  end.

(** The loop [for (const c of msgAnswer.candidates || [])]. *)
Definition next_candidate (rest : list Candidate) (o : t) : t :=
  match rest with
  | [] => with_onAnswer AnswerReturned o
  | c :: rest' =>
      call [CallAddIceCandidate c] (with_onAnswer (AnswerAddIceCandidate c rest') o)
  end.

(** [onAnswer] after the payload has been read. *)
Definition resume_answer (codec : Codec) (sdk : Sdk) (enc : Bytes) (o : t) : t :=
  match read_payload codec sdk enc with
  | inl e => with_onAnswer (AnswerThrew e) o
  | inr msgAnswer =>
      if String.eqb (e_type msgAnswer) "answer" then
        call [CallSetRemoteDescription
                {| d_type := e_type msgAnswer; d_sdp := e_sdp msgAnswer |}]
             (with_onAnswer (AnswerSetRemoteDescription msgAnswer) o)
      else with_onAnswer AnswerReturned o
  end.

(** The filter [SignalSent(toAddr, this.wallet.address)]. *)
Definition matches (sdk : Sdk) (o : t) (sender recipient : Address) : bool :=
  String.eqb sender (toAddr o) && String.eqb recipient (wallet_address sdk).

(** The call [requestHelp(toAddr)] up to its first await. *)
Definition requestHelp (toAddr : Address) : t :=
  {| toAddr := toAddr; pc := new_pc; candidates := [];
     control := AwaitCreateOffer; p2pPromise := None;
     subscription := NotSubscribed; timer := TimerUnset;
     onAnswer := None;
     actions := [CallCreateDataChannel; CallCreateOffer];
     delivered := [] |}.

(** One input.  An input nothing is waiting for leaves the attempt as it
    is.  The engine opens the data channel only on a connection that has a
    remote description. *)
Definition step (codec : Codec) (sdk : Sdk) (o : t) (ev : Event) : t :=
  match ev with
  | IceCandidate (Some c) => with_candidates (candidates o ++ [c]) o
  | IceCandidate None => o
  | IceGatheringStateChange s =>
      let o' := with_pc (set_gathering s (pc o)) o in
      match control o, s with
      | AwaitIceGathering offer, GatheringComplete => begin_send sdk offer o'
      | _, _ => o'
      end
  | CreateOfferDone offer =>
      match control o with
      | AwaitCreateOffer =>
          call [CallSetLocalDescription offer]
               (with_control (AwaitSetLocalDescription offer) o)
      | _ => o
      end
  | CreateOfferFailed e =>
      match control o with
      | AwaitCreateOffer => throw (EngineError e) o
      | _ => o
      end
  | SetLocalDescriptionDone =>
      match control o with
      | AwaitSetLocalDescription offer =>
          let o' := with_pc (set_local offer (pc o)) o in
          if gathering_complete (pc o') then begin_send sdk offer o'
          else with_control (AwaitIceGathering offer) o'
      | _ => o
      end
  | SetLocalDescriptionFailed e =>
      match control o with
      | AwaitSetLocalDescription _ => throw (EngineError e) o
      | _ => o
      end
  | EncryptDone _ | EncryptFailed _ | SendSignalDone | SendSignalFailed _
  | TxWaitDone | TxWaitFailed _ =>
      match control o with
      | AwaitSendSignal s =>
          let r := send_step (toAddr o) s ev in
          after_send (fst r) (call (snd r) o)
      | _ => o
      end
  | SignalSent sender recipient encryptedData =>
      match subscription o with
      | Subscribed =>
          if matches sdk o sender recipient then
            (* once: the listener is removed, then called *)
            let o' := with_subscription Unsubscribed o in
            match encryptedData with
            | None => with_onAnswer AnswerReturned o'     (* if (!enc) return *)
            | Some enc => with_onAnswer (AnswerDecrypting enc) o'
            end
          else o
      | _ => o
      end
  | DecryptSettled =>
      match onAnswer o with
      | Some (AnswerDecrypting enc) => resume_answer codec sdk enc o
      | _ => o
      end
  | SetRemoteDescriptionDone =>
      match onAnswer o with
      | Some (AnswerSetRemoteDescription msgAnswer) =>
          next_candidate (e_candidates msgAnswer)
            (with_pc (set_remote {| d_type := e_type msgAnswer;
                                    d_sdp := e_sdp msgAnswer |} (pc o)) o)
      | _ => o
      end
  | SetRemoteDescriptionFailed e =>
      match onAnswer o with
      | Some (AnswerSetRemoteDescription _) =>
          with_onAnswer (AnswerThrew (EngineError e)) o
      | _ => o
      end
  | AddIceCandidateDone =>
      match onAnswer o with
      | Some (AnswerAddIceCandidate c rest) =>
          next_candidate rest (with_pc (add_remote_candidate c (pc o)) o)
      | _ => o
      end
  | AddIceCandidateFailed e =>
      match onAnswer o with
      | Some (AnswerAddIceCandidate _ _) =>
          with_onAnswer (AnswerThrew (EngineError e)) o
      | _ => o
      end
  | DataChannelOpen =>
      match remoteDescription (pc o) with
      | Some _ =>
          (* dc.onopen: new DataStream, _notifyStreamOpen, resolveStream *)
          settle (Resolved (DataStream.new (toAddr o)))
                 (call [CallNotifyStreamOpen (toAddr o)] o)
      | None => o
      end
  | TimerExpired =>
      match timer o with
      | TimerArmed =>
          (* this.contract.off(filter, onAnswer); rejectStream(...) *)
          let sub :=
            match subscription o with
            | Subscribed => Unsubscribed
            | s => s
            end in
          settle (Rejected HelpResponseTimeout)
                 (with_subscription sub (with_timer TimerFired o))
      | _ => o
      end
  | CreateAnswerDone _ | CreateAnswerFailed _ => o
  end.

Definition run (codec : Codec) (sdk : Sdk) (o : t) (evs : list Event) : t :=
  fold_left (step codec sdk) evs o.

(** What the caller of [requestHelp] has been told, if anything. *)
Definition resolution (o : t) : option Settlement := last (delivered o).


End Outbound.

(** ** [RequestForHelp.accept()]: an accepted inbound attempt

    [accept] of [sdk/SignalServerSDK.js].  The one embedded in
    [sdk_simulate.js] is the same up to the submission of the answer and
    then waits, under a timer, for the channel to open. *)

Module Inbound.

(** [new RequestForHelp(sdk, sender, offer)]; the [timestamp] field, a
    clock reading that nothing reads, is left out. *)
Record RequestForHelp := {
  sender : Address;
  offer : Envelope
}.

(** Where [accept] is suspended. *)
Inductive Control :=
| AwaitSetRemoteDescription
| AwaitAddIceCandidate (c : Candidate) (rest : list Candidate)
| AwaitCreateAnswer
| AwaitSetLocalDescription (answer : Description)
| AwaitIceGathering (answer : Description)
| AwaitSendSignal (s : SendState)
| Returned
| Threw (e : Error).

Record t := {
  request : RequestForHelp;
  pc : PeerConnection;
  candidates : list Candidate;       (* const candidates = [] *)
  control : Control;
  actions : list Action
}.

Definition with_pc (x : PeerConnection) (a : t) : t :=
  {| request := request a; pc := x; candidates := candidates a;
     control := control a; actions := actions a |}.

Definition with_candidates (x : list Candidate) (a : t) : t :=
  {| request := request a; pc := pc a; candidates := x;
     control := control a; actions := actions a |}.

Definition with_control (x : Control) (a : t) : t :=
  {| request := request a; pc := pc a; candidates := candidates a;
     control := x; actions := actions a |}.

Definition call (l : list Action) (a : t) : t :=
  {| request := request a; pc := pc a; candidates := candidates a;
     control := control a; actions := actions a ++ l |}.

Definition offer_description (req : RequestForHelp) : Description :=
  {| d_type := e_type (offer req); d_sdp := e_sdp (offer req) |}.

(** The call [accept()] up to its first await,
    [pc.setRemoteDescription({ type, sdp })]. *)
Definition accept (req : RequestForHelp) : t :=
  {| request := req; pc := new_pc; candidates := [];
     control := AwaitSetRemoteDescription;
     actions := [CallSetRemoteDescription (offer_description req)] |}.

(** The loop [for (const c of this.offer.candidates || [])], then
    [pc.createAnswer()]. *)
Definition next_candidate (rest : list Candidate) (a : t) : t :=
  match rest with
  | c :: rest' =>
      call [CallAddIceCandidate c] (with_control (AwaitAddIceCandidate c rest') a)
  | [] => call [CallCreateAnswer] (with_control AwaitCreateAnswer a)
  end.

Definition after_send (s : SendState) (a : t) : t :=
  match s with
  | SendThrew e => with_control (Threw e) a
  | Sent => with_control Returned a
  | Encrypting | Submitting | Confirming => with_control (AwaitSendSignal s) a
  end.

(** "Send exactly one on-chain answer tx":
    [_sendSignal(this.sender, { type: answer.type,
    sdp: pc.localDescription.sdp, candidates })]. *)
Definition begin_send (sdk : Sdk) (answer : Description) (a : t) : t :=
  match local_sdp (pc a) with
  | inl e => with_control (Threw e) a
  | inr sdp =>
      let descObj :=
        {| e_type := d_type answer; e_sdp := sdp;
           e_candidates := candidates a |} in
      let r := _sendSignal sdk (sender (request a)) descObj in
      after_send (fst r) (call (snd r) a)
  end.

Definition step (sdk : Sdk) (a : t) (ev : Event) : t :=
  match ev with
  | IceCandidate (Some c) => with_candidates (candidates a ++ [c]) a
  | IceCandidate None => a
  | IceGatheringStateChange s =>
      let a' := with_pc (set_gathering s (pc a)) a in
      match control a, s with
      | AwaitIceGathering answer, GatheringComplete => begin_send sdk answer a'
      | _, _ => a'
      end
  | SetRemoteDescriptionDone =>
      match control a with
      | AwaitSetRemoteDescription =>
          next_candidate (e_candidates (offer (request a)))
            (with_pc (set_remote (offer_description (request a)) (pc a)) a)
      | _ => a
      end
  | SetRemoteDescriptionFailed e =>
      match control a with
      | AwaitSetRemoteDescription => with_control (Threw (EngineError e)) a
      | _ => a
      end
  | AddIceCandidateDone =>
      match control a with
      | AwaitAddIceCandidate c rest =>
          next_candidate rest (with_pc (add_remote_candidate c (pc a)) a)
      | _ => a
      end
  | AddIceCandidateFailed e =>
      match control a with
      | AwaitAddIceCandidate _ _ => with_control (Threw (EngineError e)) a
      | _ => a
      end
  | CreateAnswerDone answer =>
      match control a with
      | AwaitCreateAnswer =>
          call [CallSetLocalDescription answer]
               (with_control (AwaitSetLocalDescription answer) a)
      | _ => a
      end
  | CreateAnswerFailed e =>
      match control a with
      | AwaitCreateAnswer => with_control (Threw (EngineError e)) a
      | _ => a
      end
  | SetLocalDescriptionDone =>
      match control a with
      | AwaitSetLocalDescription answer =>
          let a' := with_pc (set_local answer (pc a)) a in
          if gathering_complete (pc a') then begin_send sdk answer a'
          else with_control (AwaitIceGathering answer) a'
      | _ => a
      end
  | SetLocalDescriptionFailed e =>
      match control a with
      | AwaitSetLocalDescription _ => with_control (Threw (EngineError e)) a
      | _ => a
      end
  | EncryptDone _ | EncryptFailed _ | SendSignalDone | SendSignalFailed _
  | TxWaitDone | TxWaitFailed _ =>
      match control a with
      | AwaitSendSignal s =>
          let r := send_step (sender (request a)) s ev in
          after_send (fst r) (call (snd r) a)
      | _ => a
      end
  | DataChannelOpen =>
      (* pc.ondatachannel, then dc.onopen: _notifyStreamOpen(stream) *)
      match remoteDescription (pc a) with
      | Some _ => call [CallNotifyStreamOpen (sender (request a))] a
      | None => a
      end
  | CreateOfferDone _ | CreateOfferFailed _ | DecryptSettled
  | SignalSent _ _ _ | TimerExpired => a
  end.

Definition run (sdk : Sdk) (a : t) (evs : list Event) : t :=
  fold_left (step sdk) evs a.


(** The calls of the negotiation: all but the notifications of an open
    channel. *)
Definition negotiation (l : list Action) : list Action :=
  List.filter
    (fun x => match x with CallNotifyStreamOpen _ => false | _ => true end) l.

End Inbound.

(** ** The facade: construction *)

(** [contract.filters.SignalSent(sender, recipient)]; [null] is any. *)
Record Filter := {
  f_sender : option Address;
  f_recipient : Address
}.

(** The object the constructor destructures; [None] is an omitted
    property.  A wallet is given by its address, an encryption identity by
    its private key. *)
Record Options := {
  opt_wallet : option Address;
  opt_encryptionIdentity : option PrivateKey;
  opt_peerPublicKeys : option (gmap Address PublicKey);
  opt_timeoutMs : option N
}.

(** What a [new SignalServerSdk(...)] comes to: the instance or the
    exception, and the subscriptions made on the contract object on the
    way. *)
Record Construction := {
  outcome : Error + Sdk;
  subscriptions : list Filter
}.

(** [_startContractListeners()]: [contract.on] with the filter
    [SignalSent(null, this.wallet.address)]. *)
Definition _startContractListeners (wallet : Address) : Filter :=
  {| f_sender := None; f_recipient := wallet |}.

(** [sdk/SignalServerSDK.js]. *)
Module SignalServerSdk.

(** [peerPublicKeys = {}] and [timeoutMs = 20000] are the defaults;
    [wallet.connect(provider)] needs a wallet. *)
Definition constructor (opts : Options) : Construction :=
  match opt_wallet opts with
  | None =>
      {| outcome := inl (TypeError "wallet is undefined");
         subscriptions := [] |}
  | Some wallet =>
      {| outcome :=
           inr {| wallet_address := wallet;
                  identity := opt_encryptionIdentity opts;
                  peerPublicKeys := default ∅ (opt_peerPublicKeys opts);
                  timeoutMs := default 20000%N (opt_timeoutMs opts);
                  _helpCb := None; _streamCb := None |};
         subscriptions := [_startContractListeners wallet] |}
  end.

End SignalServerSdk.

(** The [SignalServerSdk] embedded in [sdk_simulate.js]: the variant the
    tests are written against (it has the [contract] setter they use, which
    calls [_startContractListeners]). *)
Module EmbeddedSdk.

(** [createRandom] and [createIdentity] are what [ethers.Wallet.createRandom()]
    and [EthCrypto.createIdentity()] return when the wallet or the identity
    is omitted.  The directory is checked first:
    [!peerPublicKeys || Object.keys(peerPublicKeys).length === 0]. *)
Definition constructor (createRandom : Address) (createIdentity : PrivateKey)
    (opts : Options) : Construction :=
  match opt_peerPublicKeys opts with
  | None => {| outcome := inl PeerPublicKeysRequired; subscriptions := [] |}
  | Some directory =>
      if (size directory =? 0)%nat then
        {| outcome := inl PeerPublicKeysRequired; subscriptions := [] |}
      else
        let wallet := default createRandom (opt_wallet opts) in
        {| outcome :=
             inr {| wallet_address := wallet;
                    identity :=
                      Some (default createIdentity (opt_encryptionIdentity opts));
                    peerPublicKeys := directory;
                    timeoutMs := default 20000%N (opt_timeoutMs opts);
                    _helpCb := None; _streamCb := None |};
           subscriptions := [_startContractListeners wallet] |}
  end.

End EmbeddedSdk.

(** ** The facade: handlers and the persistent listener *)

Module Facade.

(** The instance, the calls of the listener suspended at
    [await EthCrypto.decryptWithPrivateKey(...)], each with the sender and
    the payload of its event, and the requests handed to the help
    callback. *)
Record t := {
  sdk : Sdk;
  suspended : list (Address * Bytes);
  requests : list (Callback * Inbound.RequestForHelp)
}.

Inductive Input :=
| OnHelpRequest (cb : Callback)          (* sdk.onHelpRequest(cb) *)
| OnStreamOpen (cb : Callback)           (* sdk.onStreamOpen(cb) *)
| Delivered (sender recipient : Address) (encryptedData : option Bytes)
    (* a SignalSent event reaches the contract object *)
| Resumed (k : nat).
    (* the decryption awaited by the k-th suspended call has settled *)

Definition onHelpRequest (cb : Callback) (s : Sdk) : Sdk :=
  {| wallet_address := wallet_address s; identity := identity s;
     peerPublicKeys := peerPublicKeys s; timeoutMs := timeoutMs s;
     _helpCb := Some cb; _streamCb := _streamCb s |}.

Definition onStreamOpen (cb : Callback) (s : Sdk) : Sdk :=
  {| wallet_address := wallet_address s; identity := identity s;
     peerPublicKeys := peerPublicKeys s; timeoutMs := timeoutMs s;
     _helpCb := _helpCb s; _streamCb := Some cb |}.

(** [_notifyStreamOpen(stream)]: [if (this._streamCb) this._streamCb(stream)],
    the calls made. *)
Definition _notifyStreamOpen (s : Sdk) (stream : DataStream.t)
    : list (Callback * DataStream.t) :=
  match _streamCb s with
  | Some cb => [(cb, stream)]
  | None => []
  end.

(** The listener after its await: [JSON.parse], then
    [if (msg.type === "offer" && this._helpCb)]. *)
Definition resume (codec : Codec) (f : t) (k : nat) : t :=
  match suspended f !! k with
  | None => f
  | Some (sender, enc) =>
      let rest := delete k (suspended f) in
      let requested :=
        match read_payload codec (sdk f) enc with
        | inl _ => []            (* the call throws; nothing awaits it *)
        | inr msg =>
            if String.eqb (e_type msg) "offer" then
              match _helpCb (sdk f) with
              | Some cb =>
                  [(cb, {| Inbound.sender := sender; Inbound.offer := msg |})]
              | None => []
              end
            else []                (* ignore other types here *)
        end in
      {| sdk := sdk f; suspended := rest;
         requests := requests f ++ requested |}
  end.

Definition step (codec : Codec) (f : t) (i : Input) : t :=
  match i with
  | OnHelpRequest cb =>
      {| sdk := onHelpRequest cb (sdk f); suspended := suspended f;
         requests := requests f |}
  | OnStreamOpen cb =>
      {| sdk := onStreamOpen cb (sdk f); suspended := suspended f;
         requests := requests f |}
  | Delivered sender recipient encryptedData =>
      if String.eqb recipient (wallet_address (sdk f)) then
        match encryptedData with
        | None => f                               (* if (!encryptedData) return *)
        | Some enc =>
            {| sdk := sdk f; suspended := suspended f ++ [(sender, enc)];
               requests := requests f |}
        end
      else f
  | Resumed k => resume codec f k
  end.

Definition run (codec : Codec) (f : t) (l : list Input) : t :=
  fold_left (step codec) l f.

(** The facade as constructed. *)
Definition start (s : Sdk) : t :=
  {| sdk := s; suspended := []; requests := [] |}.

End Facade.

(** ** Concurrent sends, with and without [addSendQueue] *)

Module SendQueue.

(** What is to be sent: [_sendSignal(to, desc)] or
    [_sendCandidate(to, cand)]. *)
Inductive Payload :=
| Signal (desc : Envelope)
| CandidateOf (cand : Candidate).

(** A call: not yet started (its [then] callback has not run), running, or
    never to run because the queue promise before it rejected. *)
Inductive Job :=
| Waiting
| Running (s : SendState)
| Skipped (e : Error).

Record Call := {
  c_to : Address;
  c_payload : Payload;
  c_job : Job
}.

(** The calls in the order they were made, and the transactions handed to
    the relay ([contractWithSigner.sendSignal]) in the order they were
    handed, each with the index of its call. *)
Record t := {
  calls : list Call;
  transmitted : list (nat * (Address * Bytes))
}.

Inductive PromiseState :=
| Pending
| Fulfilled
| Rejected (e : Error).

(** The promise [queue] after a call: [queue.then(() => orig(...))]. *)
Definition promise_of (j : Job) : PromiseState :=
  match j with
  | Running Sent => Fulfilled
  | Running (SendThrew e) | Skipped e => Rejected e
  | Running _ | Waiting => Pending
  end.

Definition with_job (j : Job) (c : Call) : Call :=
  {| c_to := c_to c; c_payload := c_payload c; c_job := j |}.

(** [origSignal(to, desc)] or [origCandidate(to, cand)] is called. *)
Definition start (sdk : Sdk) (c : Call) : Call :=
  let r :=
    match c_payload c with
    | Signal desc => _sendSignal sdk (c_to c) desc
    | CandidateOf cand => _sendCandidate sdk (c_to c) cand
    end in
  with_job (Running (fst r)) c.

(** The [then] callbacks that can run do run: a waiting call starts when
    the promise before it is fulfilled and is skipped when it is rejected
    (a [then] with one callback passes the rejection on). *)
Fixpoint settle (sdk : Sdk) (prev : PromiseState) (l : list Call) : list Call :=
  match l with
  | [] => []
  | c :: l' =>
      let c' :=
        match c_job c, prev with
        | Waiting, Fulfilled => start sdk c
        | Waiting, Rejected e => with_job (Skipped e) c
        | _, _ => c
        end in
      c' :: settle sdk (promise_of (c_job c')) l'
  end.

Inductive Input :=
| Request (to : Address) (p : Payload)   (* sdk._sendSignal / _sendCandidate *)
| Completion (i : nat) (ev : Event).     (* a completion for the i-th call *)

(** [queued] is whether [addSendQueue(sdk)] has replaced the two methods;
    [let queue = Promise.resolve()] is fulfilled. *)
Definition step (queued : bool) (sdk : Sdk) (q : t) (i : Input) : t :=
  match i with
  | Request to p =>
      let c := {| c_to := to; c_payload := p; c_job := Waiting |} in
      {| calls :=
           if queued then settle sdk Fulfilled (calls q ++ [c])
           else calls q ++ [start sdk c];
         transmitted := transmitted q |}
  | Completion i ev =>
      match calls q !! i with
      | Some c =>
          match c_job c with
          | Running s =>
              let r := send_step (c_to c) s ev in
              let l := <[i := with_job (Running (fst r)) c]> (calls q) in
              {| calls := if queued then settle sdk Fulfilled l else l;
                 transmitted :=
                   transmitted q ++
                   omap (fun a => match a with
                                  | CallSendSignal to data => Some (i, (to, data))
                                  | _ => None
                                  end) (snd r) |}
          | Waiting | Skipped _ => q
          end
      | None => q
      end
  end.

Definition run (queued : bool) (sdk : Sdk) (l : list Input) : t :=
  fold_left (step queued sdk) l {| calls := []; transmitted := [] |}.

(** The calls whose transaction has reached the relay, in relay order. *)
Definition relay_order (q : t) : list nat := map fst (transmitted q).

Definition job_at (q : t) (i : nat) : option Job := c_job <$> calls q !! i.

End SendQueue.

(** * Invariants of the state machines, and a concrete world

    The predicates the proofs below maintain along a run, and the data of
    the example runs. *)

(** ** Outbound attempts *)

Section OutboundInvariants.
Import Outbound.
Variable codec : Codec.
Variable sdk : Sdk.

Definition pristine (o : t) : Prop :=
  p2pPromise o = None /\ subscription o = NotSubscribed /\
  timer o = TimerUnset /\ onAnswer o = None /\
  remoteDescription (pc o) = None.

(** What holds of every attempt, whatever the inputs. *)
Definition attempt_inv (o : t) : Prop :=
  match control o with
  | AwaitCreateOffer | AwaitSetLocalDescription _ | AwaitIceGathering _
  | AwaitSendSignal Encrypting =>
      pristine o /\ submissions (actions o) = [] /\ delivered o = []
  | AwaitSendSignal Submitting | AwaitSendSignal Confirming =>
      pristine o /\ length (submissions (actions o)) = 1 /\ delivered o = []
  | AwaitSendSignal Sent | AwaitSendSignal (SendThrew _) => False
  | Returned =>
      length (submissions (actions o)) = 1 /\
      subscription o <> NotSubscribed /\ timer o <> TimerUnset /\
      delivered o = match p2pPromise o with Some r => [r] | None => [] end /\
      (timer o = TimerFired ->
       subscription o = Unsubscribed /\ p2pPromise o <> None) /\
      (subscription o = Subscribed -> onAnswer o = None) /\
      (onAnswer o = None -> remoteDescription (pc o) = None) /\
      (remoteDescription (pc o) = None ->
       p2pPromise o = None \/
       p2pPromise o = Some (Rejected HelpResponseTimeout)) /\
      (forall e, p2pPromise o = Some (Rejected e) -> timer o = TimerFired)
  | Threw e =>
      pristine o /\ length (submissions (actions o)) <= 1 /\
      delivered o = [Rejected e]
  end.


(** The attempt has timed out: the timer has fired, the subscription is
    gone and the promise is rejected. *)
Definition timed_out (o : t) : Prop :=
  control o = Returned /\ timer o = TimerFired /\
  subscription o = Unsubscribed /\
  p2pPromise o = Some (Rejected HelpResponseTimeout).


Definition is_engine_call (a : Action) : bool :=
  match a with
  | CallEncrypt _ _ | CallEncryptCandidate _ _ | CallSendSignal _ _
  | CallTxWait => false
  | _ => true
  end.

Definition unknown_inv (to : Address) (o : t) : Prop :=
  toAddr o = to /\ forallb is_engine_call (actions o) = true /\ pristine o /\
  match control o with
  | AwaitCreateOffer | AwaitSetLocalDescription _ =>
      localDescription (pc o) = None /\ delivered o = []
  | AwaitIceGathering _ =>
      localDescription (pc o) <> None /\
      gathering_complete (pc o) = false /\ delivered o = []
  | Threw e =>
      delivered o = [Rejected e] /\
      (e = NoPublicKeyForPeer to \/
       (exists m, e = EngineError m) /\ localDescription (pc o) = None)
  | AwaitSendSignal _ | Returned => False
  end.

End OutboundInvariants.

(** ** Accepted inbound attempts *)

Section InboundInvariants.
Import Inbound.
Variable sdk : Sdk.
Variable req : RequestForHelp.








End InboundInvariants.

(** ** The send queue *)

Section QueueInvariants.
Import SendQueue.

(** The job that can stand after a promise state once the queue has
    settled ... *)
Definition follows (prev : PromiseState) (j : Job) : Prop :=
  match prev, j with
  | Fulfilled, Running _ => True
  | Pending, Waiting => True
  | Rejected e, Skipped e' => e = e'
  | _, _ => False
  end.

Fixpoint settled (prev : PromiseState) (l : list Call) : Prop :=
  match l with
  | [] => True
  | c :: l' => follows prev (c_job c) /\ settled (promise_of (c_job c)) l'
  end.

(** ... and before it has: a waiting call may stand anywhere. *)
Definition may_follow (prev : PromiseState) (j : Job) : Prop :=
  match j with
  | Waiting => True
  | Running _ => prev = Fulfilled
  | Skipped e => prev = Rejected e
  end.

Fixpoint loose (prev : PromiseState) (l : list Call) : Prop :=
  match l with
  | [] => True
  | c :: l' => may_follow prev (c_job c) /\ loose (promise_of (c_job c)) l'
  end.

(** What holds of a queue made by [addSendQueue]. *)
Definition queue_inv (q : t) : Prop :=
  settled Fulfilled (calls q) /\
  StronglySorted lt (relay_order q) /\
  forall j, In j (relay_order q) ->
    exists c s, calls q !! j = Some c /\ c_job c = Running s /\ s <> Encrypting.

End QueueInvariants.

(** ** A concrete world, to run the model on

    A toy cipher: the ciphertext for a key is the key, a colon and the
    plaintext; the two envelopes below are the only plaintexts that
    parse. *)

Definition toy_seal (key plaintext : string) : Bytes :=
  list_byte_of_string (key +:+ ":" +:+ plaintext).

Definition toy_open (key : PrivateKey) (data : Bytes) : option string :=
  let s := string_of_list_byte data in
  let tag := key +:+ ":" in
  if String.prefix tag s
  then Some (substring (String.length tag) (String.length s) s)
  else None.

Definition toy_offer : Envelope :=
  {| e_type := "offer"; e_sdp := "v=0 alice"; e_candidates := ["cand-a"] |}.

Definition toy_answer : Envelope :=
  {| e_type := "answer"; e_sdp := "v=0 bob"; e_candidates := ["cand-b"] |}.

Definition toy_parse (plaintext : string) : option Envelope :=
  if String.eqb plaintext "offer" then Some toy_offer
  else if String.eqb plaintext "answer" then Some toy_answer
  else None.

Definition toy : Codec :=
  {| open_payload := toy_open; parse_envelope := toy_parse |}.

Definition alice : Sdk :=
  {| wallet_address := "0xA11ce"; identity := Some "alice";
     peerPublicKeys := {[ "0xB0b" := "bob" ]}; timeoutMs := 20000%N;
     _helpCb := None; _streamCb := None |}.

Definition bob : Sdk :=
  {| wallet_address := "0xB0b"; identity := Some "bob";
     peerPublicKeys := {[ "0xA11ce" := "alice" ]}; timeoutMs := 20000%N;
     _helpCb := None; _streamCb := None |}.

Definition alice_offer : Description :=
  {| d_type := "offer"; d_sdp := "v=0 alice" |}.

(** Alice's attempt up to the point where it waits for Bob's reply. *)
Definition offer_sent : list Event :=
  [ CreateOfferDone alice_offer; SetLocalDescriptionDone;
    IceCandidate (Some "cand-a"); IceCandidate None;
    IceGatheringStateChange GatheringComplete;
    EncryptDone (toy_seal "bob" "offer"); SendSignalDone; TxWaitDone ].

Definition bobs_answer : Event :=
  SignalSent "0xB0b" "0xA11ce" (Some (toy_seal "alice" "answer")).


(** The answer applied and the channel opened. *)
Definition answer_applied : list Event :=
  [ DecryptSettled; SetRemoteDescriptionDone; AddIceCandidateDone;
    DataChannelOpen ].

Definition alices_request : Inbound.RequestForHelp :=
  {| Inbound.sender := "0xA11ce"; Inbound.offer := toy_offer |}.

Definition bob_answer : Description :=
  {| d_type := "answer"; d_sdp := "v=0 bob" |}.

(** Bob accepts: the offer is applied, the answer created, gathering
    completes, the answer is sealed, submitted and mined. *)
Definition bob_accepts : list Event :=
  [ SetRemoteDescriptionDone; AddIceCandidateDone;
    CreateAnswerDone bob_answer; IceCandidate (Some "cand-b");
    SetLocalDescriptionDone; DataChannelOpen;
    IceGatheringStateChange GatheringComplete;
    EncryptDone (toy_seal "alice" "answer"); SendSignalDone; TxWaitDone ].

(** Bob's facade before any handler is registered. *)
Definition bob_facade : Facade.t := Facade.start bob.

Definition alices_offer : Facade.Input :=
  Facade.Delivered "0xA11ce" "0xB0b" (Some (toy_seal "bob" "offer")).
(** * The rest of the SDK: further predicates and models *)

(** ** Outbound attempts: settlements and the filter *)

Section OutboundSettlements.
Import Outbound.
Variable sdk : Sdk.

(** What the promise of an attempt can have been settled with. *)
Definition settlement_inv (o : t) : Prop :=
  (forall e, p2pPromise o = Some (Rejected e) -> e = HelpResponseTimeout) /\
  (forall s, p2pPromise o = Some (Resolved s) ->
     s = DataStream.new (toAddr o) /\
     In (CallNotifyStreamOpen (toAddr o)) (actions o)) /\
  (forall e, control o = Threw e -> e <> HelpResponseTimeout).


End OutboundSettlements.

(** ** Outbound attempts: the offer that is sent and the reply applied *)

Section OutboundOffer.
Import Outbound.
Variable codec : Codec.
Variable sdk : Sdk.
Variable to : Address.






(** The calls [onAnswer] makes to the engine. *)
Definition reply_calls (l : list Action) : list Action :=
  List.filter (fun a => match a with
                        | CallSetRemoteDescription _ | CallAddIceCandidate _ =>
                            true
                        | _ => false
                        end) l.

Definition answer_description (msg : Envelope) : Description :=
  {| d_type := e_type msg; d_sdp := e_sdp msg |}.

(** [msg] is the envelope of a valid reply among [evs]. *)
Definition reply_of (evs : list Event) (msg : Envelope) : Prop :=
  exists enc,
    In (SignalSent to (wallet_address sdk) (Some enc)) evs /\
    read_payload codec sdk enc = inr msg /\ e_type msg = "answer".

(** [setRemoteDescription] with the reply's description, then
    [addIceCandidate] with each of [given]. *)
Definition applied_calls (msg : Envelope) (given : list Candidate)
    : list Action :=
  CallSetRemoteDescription (answer_description msg)
  :: map CallAddIceCandidate given.

(** Nothing of a reply has reached the engine. *)
Definition nothing_applied (o : t) : Prop :=
  remoteDescription (pc o) = None /\ remoteCandidates (pc o) = [].

(** What the engine has been given, by the point [onAnswer] has reached. *)
Definition reply_inv (evs : list Event) (o : t) : Prop :=
  toAddr o = to /\
  match onAnswer o with
  | None => nothing_applied o /\ reply_calls (actions o) = []
  | Some (AnswerDecrypting enc) =>
      In (SignalSent to (wallet_address sdk) (Some enc)) evs /\
      nothing_applied o /\ reply_calls (actions o) = []
  | Some (AnswerSetRemoteDescription msg) =>
      reply_of evs msg /\ nothing_applied o /\
      reply_calls (actions o) = applied_calls msg []
  | Some (AnswerAddIceCandidate c rest) =>
      exists msg,
        reply_of evs msg /\
        remoteDescription (pc o) = Some (answer_description msg) /\
        e_candidates msg = remoteCandidates (pc o) ++ c :: rest /\
        reply_calls (actions o) =
          applied_calls msg (remoteCandidates (pc o) ++ [c])
  | Some AnswerReturned =>
      (nothing_applied o /\ reply_calls (actions o) = []) \/
      exists msg,
        reply_of evs msg /\
        remoteDescription (pc o) = Some (answer_description msg) /\
        remoteCandidates (pc o) = e_candidates msg /\
        reply_calls (actions o) = applied_calls msg (e_candidates msg)
  | Some (AnswerThrew _) =>
      (nothing_applied o /\
       (reply_calls (actions o) = [] \/
        exists msg,
          reply_of evs msg /\ reply_calls (actions o) = applied_calls msg []))
      \/
      exists msg c rest,
        reply_of evs msg /\
        remoteDescription (pc o) = Some (answer_description msg) /\
        e_candidates msg = remoteCandidates (pc o) ++ c :: rest /\
        reply_calls (actions o) =
          applied_calls msg (remoteCandidates (pc o) ++ [c])
  end.

End OutboundOffer.

(** ** One call of [_sendSignal] or [_sendCandidate], run to the end *)

(** The call resumed by each of [evs] in turn: where it stands and the
    calls it has made. *)
Definition send_run (to : Address) (start : SendState * list Action)
    (evs : list Event) : SendState * list Action :=
  fold_left
    (fun st ev =>
       let r := send_step to (fst st) ev in (fst r, snd st ++ snd r))
    evs start.

(** What a call that began with the cipher call [enc] has done, by where
    it stands. *)
Definition send_shape (sdk : Sdk) (to : Address) (enc : PublicKey -> Action)
    (evs : list Event) (r : SendState * list Action) : Prop :=
  match fst r with
  | SendThrew (NoPublicKeyForPeer addr) =>
      addr = to /\ snd r = [] /\
      (peerPublicKeys sdk !! to = None \/
       peerPublicKeys sdk !! to = Some EmptyString)
  | SendThrew (CipherError e) =>
      exists key,
        peerPublicKeys sdk !! to = Some key /\
        In (EncryptFailed e) evs /\ snd r = [enc key]
  | SendThrew (SubmissionError e) =>
      exists key data,
        peerPublicKeys sdk !! to = Some key /\ In (EncryptDone data) evs /\
        ((In (SendSignalFailed e) evs /\
          snd r = [enc key; CallSendSignal to data]) \/
         (In (TxWaitFailed e) evs /\
          snd r = [enc key; CallSendSignal to data; CallTxWait]))
  | SendThrew _ => False
  | Encrypting =>
      exists key, peerPublicKeys sdk !! to = Some key /\ snd r = [enc key]
  | Submitting =>
      exists key data,
        peerPublicKeys sdk !! to = Some key /\ In (EncryptDone data) evs /\
        snd r = [enc key; CallSendSignal to data]
  | Confirming =>
      exists key data,
        peerPublicKeys sdk !! to = Some key /\ In (EncryptDone data) evs /\
        In SendSignalDone evs /\
        snd r = [enc key; CallSendSignal to data; CallTxWait]
  | Sent =>
      exists key data,
        peerPublicKeys sdk !! to = Some key /\ In (EncryptDone data) evs /\
        In SendSignalDone evs /\ In TxWaitDone evs /\
        snd r = [enc key; CallSendSignal to data; CallTxWait]
  end.

(** ** The facade of [sdk_simulate.js]: requests that carry a key *)

Module EmbeddedFacade.

(** [new RequestForHelp(sdk, sender, offer)] of the embedded SDK also sets
    [this.publicKey = sdk._getPeerPubKey(sender)]. *)
Record RequestForHelp := {
  sender : Address;
  offer : Envelope;
  publicKey : PublicKey
}.

(** The constructor: it throws what [_getPeerPubKey] throws. *)
Definition new_request (s : Sdk) (sender : Address) (offer : Envelope)
    : Error + RequestForHelp :=
  match _getPeerPubKey s sender with
  | inl e => inl e
  | inr pk => inr {| sender := sender; offer := offer; publicKey := pk |}
  end.

Record t := {
  sdk : Sdk;
  suspended : list (Address * Bytes);
  requests : list (Callback * RequestForHelp)
}.

(** The listener after its await; it is the listener of
    [sdk/SignalServerSDK.js], with this constructor. *)
Definition resume (codec : Codec) (f : t) (k : nat) : t :=
  match suspended f !! k with
  | None => f
  | Some (sender, enc) =>
      let rest := delete k (suspended f) in
      let requested :=
        match read_payload codec (sdk f) enc with
        | inl _ => []
        | inr msg =>
            if String.eqb (e_type msg) "offer" then
              match _helpCb (sdk f) with
              | Some cb =>
                  match new_request (sdk f) sender msg with
                  | inr req => [(cb, req)]
                  | inl _ => []   (* the constructor throws *)
                  end
              | None => []
              end
            else []
        end in
      {| sdk := sdk f; suspended := rest;
         requests := requests f ++ requested |}
  end.

Definition step (codec : Codec) (f : t) (i : Facade.Input) : t :=
  match i with
  | Facade.OnHelpRequest cb =>
      {| sdk := Facade.onHelpRequest cb (sdk f); suspended := suspended f;
         requests := requests f |}
  | Facade.OnStreamOpen cb =>
      {| sdk := Facade.onStreamOpen cb (sdk f); suspended := suspended f;
         requests := requests f |}
  | Facade.Delivered sender recipient encryptedData =>
      if String.eqb recipient (wallet_address (sdk f)) then
        match encryptedData with
        | None => f
        | Some enc =>
            {| sdk := sdk f; suspended := suspended f ++ [(sender, enc)];
               requests := requests f |}
        end
      else f
  | Facade.Resumed k => resume codec f k
  end.

Definition run (codec : Codec) (f : t) (l : list Facade.Input) : t :=
  fold_left (step codec) l f.

Definition start (s : Sdk) : t :=
  {| sdk := s; suspended := []; requests := [] |}.

End EmbeddedFacade.

(** ** The listener: what holds along a run *)

Section ListenerInvariants.
Variable codec : Codec.
Variable sdk0 : Sdk.

(** The instance is the one constructed, but for its two callbacks. *)
Definition same_instance (s : Sdk) : Prop :=
  wallet_address s = wallet_address sdk0 /\ identity s = identity sdk0 /\
  peerPublicKeys s = peerPublicKeys sdk0.

(** [cb] is a help callback that was registered. *)
Definition registered (inputs : list Facade.Input) (cb : Callback) : Prop :=
  _helpCb sdk0 = Some cb \/ In (Facade.OnHelpRequest cb) inputs.

(** An event for this wallet, from [sender], whose payload reads as the
    offer [msg], was delivered. *)
Definition offered (inputs : list Facade.Input) (sender : Address)
    (msg : Envelope) : Prop :=
  exists enc,
    In (Facade.Delivered sender (wallet_address sdk0) (Some enc)) inputs /\
    read_payload codec sdk0 enc = inr msg /\ e_type msg = "offer".

Definition pending (inputs : list Facade.Input)
    (l : list (Address * Bytes)) : Prop :=
  forall sender enc,
    In (sender, enc) l ->
    In (Facade.Delivered sender (wallet_address sdk0) (Some enc)) inputs.

Definition listener_inv (inputs : list Facade.Input) (f : Facade.t) : Prop :=
  same_instance (Facade.sdk f) /\
  (forall cb, _helpCb (Facade.sdk f) = Some cb -> registered inputs cb) /\
  pending inputs (Facade.suspended f) /\
  forall cb req,
    In (cb, req) (Facade.requests f) ->
    registered inputs cb /\
    offered inputs (Inbound.sender req) (Inbound.offer req).

Definition embedded_listener_inv (inputs : list Facade.Input)
    (f : EmbeddedFacade.t) : Prop :=
  same_instance (EmbeddedFacade.sdk f) /\
  (forall cb, _helpCb (EmbeddedFacade.sdk f) = Some cb ->
              registered inputs cb) /\
  pending inputs (EmbeddedFacade.suspended f) /\
  forall cb req,
    In (cb, req) (EmbeddedFacade.requests f) ->
    registered inputs cb /\
    offered inputs (EmbeddedFacade.sender req) (EmbeddedFacade.offer req) /\
    peerPublicKeys sdk0 !! EmbeddedFacade.sender req =
      Some (EmbeddedFacade.publicKey req) /\
    EmbeddedFacade.publicKey req <> EmptyString.

End ListenerInvariants.

(** ** [accept()] of the embedded SDK: the answer, then a timer *)

Module EmbeddedInbound.

Inductive AcceptError :=
| HelpAcceptTimeout                 (* new Error("HelpAcceptTimeout") *)
| Thrown (e : Error).               (* an exception inside accept *)

Inductive Settlement :=
| Resolved (stream : DataStream.t)
| Rejected (e : AcceptError).

(** [const timeout = setTimeout(...)], declared at step 7: before that
    the binding exists but cannot be read. *)
Inductive Timeout := Undeclared | Armed | Cleared | Fired.

(** Steps 2 to 6 are, line for line, [accept] of [sdk/SignalServerSDK.js]:
    [negotiation] is that call.  [uncaught] are the exceptions thrown by
    the [dc.onopen] handler. *)
Record t := {
  negotiation : Inbound.t;
  p2pPromise : option Settlement;    (* None: pending *)
  timeout : Timeout;
  closed : bool;                     (* pc.close() *)
  uncaught : list string;
  delivered : list Settlement
    (* the settlements of the promise accept returned, as they reach the
       caller *)
}.

Definition with_negotiation (n : Inbound.t) (a : t) : t :=
  {| negotiation := n; p2pPromise := p2pPromise a; timeout := timeout a;
     closed := closed a; uncaught := uncaught a; delivered := delivered a |}.

Definition with_timeout (x : Timeout) (a : t) : t :=
  {| negotiation := negotiation a; p2pPromise := p2pPromise a; timeout := x;
     closed := closed a; uncaught := uncaught a; delivered := delivered a |}.

Definition deliver (r : Settlement) (a : t) : t :=
  {| negotiation := negotiation a; p2pPromise := p2pPromise a;
     timeout := timeout a; closed := closed a; uncaught := uncaught a;
     delivered := delivered a ++ [r] |}.

Definition returned (a : t) : bool :=
  match Inbound.control (negotiation a) with
  | Inbound.Returned => true
  | _ => false
  end.

(** [resolveStream] and [rejectStream]: the first call settles
    [p2pPromise]; the caller is told once [accept] has returned it. *)
Definition settle (r : Settlement) (a : t) : t :=
  match p2pPromise a with
  | Some _ => a
  | None =>
      let a' :=
        {| negotiation := negotiation a; p2pPromise := Some r;
           timeout := timeout a; closed := closed a; uncaught := uncaught a;
           delivered := delivered a |} in
      if returned a then deliver r a' else a'
  end.

(** The call [accept()] up to its first await. *)
Definition accept (req : Inbound.RequestForHelp) : t :=
  {| negotiation := Inbound.accept req; p2pPromise := None;
     timeout := Undeclared; closed := false; uncaught := [];
     delivered := [] |}.

(** [dc.onopen]: [clearTimeout(timeout)], [_notifyStreamOpen(stream)],
    [resolveStream(stream)].  Reading [timeout] before its declaration has
    run throws a [ReferenceError], which ends the handler. *)
Definition onopen (a : t) : t :=
  let sender := Inbound.sender (Inbound.request (negotiation a)) in
  match timeout a with
  | Undeclared =>
      {| negotiation := negotiation a; p2pPromise := p2pPromise a;
         timeout := timeout a; closed := closed a;
         uncaught :=
           uncaught a ++ ["Cannot access 'timeout' before initialization"];
         delivered := delivered a |}
  | t =>
      let cleared := match t with Armed => Cleared | _ => t end in
      settle (Resolved (DataStream.new sender))
        (with_timeout cleared
           (with_negotiation
              (Inbound.call [CallNotifyStreamOpen sender] (negotiation a)) a))
  end.

(** The timer's callback: [pc.close()], [rejectStream(...)]. *)
Definition ontimeout (a : t) : t :=
  settle (Rejected HelpAcceptTimeout)
    {| negotiation := negotiation a; p2pPromise := p2pPromise a;
       timeout := Fired; closed := true; uncaught := uncaught a;
       delivered := delivered a |}.

(** A completion or an event of the engine, the cipher or the relay
    reaches steps 2 to 6.  When [await this._sdk._sendSignal(...)] resumes,
    step 7 sets the timer and [accept] returns [p2pPromise]; an exception in
    steps 3 to 6 rejects the promise [accept] returned. *)
Definition resumed (sdk : Sdk) (a : t) (ev : Event) : t :=
  let n := Inbound.step sdk (negotiation a) ev in
  let a' := with_negotiation n a in
  match Inbound.control (negotiation a), Inbound.control n with
  | Inbound.AwaitSendSignal _, Inbound.Returned =>
      let a'' := with_timeout Armed a' in
      match p2pPromise a'' with
      | Some r => deliver r a''
      | None => a''
      end
  | Inbound.Threw _, _ => a'
  | _, Inbound.Threw e => deliver (Rejected (Thrown e)) a'
  | _, _ => a'
  end.

(** One input.  The engine opens a channel only on a connection that has
    a remote description. *)
Definition step (sdk : Sdk) (a : t) (ev : Event) : t :=
  match ev with
  | DataChannelOpen =>
      match remoteDescription (Inbound.pc (negotiation a)) with
      | Some _ => onopen a
      | None => a
      end
  | TimerExpired =>
      match timeout a with
      | Armed => ontimeout a
      | _ => a
      end
  | _ => resumed sdk a ev
  end.

Definition run (sdk : Sdk) (a : t) (evs : list Event) : t :=
  fold_left (step sdk) evs a.

Definition resolution (a : t) : option Settlement := last (delivered a).

(** The notifications of an open channel among the calls made. *)
Definition notifications (a : t) : list Action :=
  List.filter
    (fun x => match x with CallNotifyStreamOpen _ => true | _ => false end)
    (Inbound.actions (negotiation a)).

End EmbeddedInbound.

Section EmbeddedAcceptInvariants.
Import EmbeddedInbound.
Variable req : Inbound.RequestForHelp.

Definition the_stream : Settlement :=
  Resolved (DataStream.new (Inbound.sender req)).

(** What holds of every call of the embedded [accept], by the state of
    its timer. *)
Definition timeout_inv (a : t) : Prop :=
  Inbound.request (negotiation a) = req /\
  match timeout a with
  | Undeclared =>
      p2pPromise a = None /\ closed a = false /\ notifications a = [] /\
      match Inbound.control (negotiation a) with
      | Inbound.Returned => False
      | Inbound.Threw e => delivered a = [Rejected (Thrown e)]
      | _ => delivered a = []
      end
  | Armed =>
      Inbound.control (negotiation a) = Inbound.Returned /\
      p2pPromise a = None /\ delivered a = [] /\ closed a = false /\
      notifications a = []
  | Cleared =>
      Inbound.control (negotiation a) = Inbound.Returned /\
      p2pPromise a = Some the_stream /\ delivered a = [the_stream] /\
      closed a = false /\ notifications a <> []
  | Fired =>
      Inbound.control (negotiation a) = Inbound.Returned /\
      p2pPromise a = Some (Rejected HelpAcceptTimeout) /\
      delivered a = [Rejected HelpAcceptTimeout] /\ closed a = true
  end.

(** Past its first await, [accept] has given the engine a remote
    description. *)
Definition remote_given (n : Inbound.t) : Prop :=
  match Inbound.control n with
  | Inbound.AwaitSetRemoteDescription | Inbound.Threw _ => True
  | _ => remoteDescription (Inbound.pc n) <> None
  end.

End EmbeddedAcceptInvariants.

(** ** [FakeContract], the in-memory relay of the tests *)

Module FakeContract.

(** A value that is concatenated into a filter string: [null] prints as
    ["null"], [undefined] as ["undefined"], a string as itself. *)
Inductive Arg := Null | Undefined | Str (s : string).

Definition to_string (a : Arg) : string :=
  match a with
  | Null => "null"
  | Undefined => "undefined"
  | Str s => s
  end.

(** [filters.SignalSent(sender, recipient)]:
    ["SignalSent:" + sender + ":" + recipient]. *)
Definition SignalSent (sender recipient : Arg) : string :=
  "SignalSent:" +:+ to_string sender +:+ ":" +:+ to_string recipient.

Definition Listener := nat.

(** An entry of the emitter's listener array for an event name; [once]
    entries are removed when they are first invoked. *)
Record Registration := {
  r_name : string;
  r_listener : Listener;
  r_once : bool
}.

(** An invocation: [listener(sender, recipient, data, { args })]. *)
Record Invocation := {
  i_listener : Listener;
  i_sender : Arg;
  i_recipient : Arg;
  i_data : Bytes
}.

(** [_sender] is [undefined] until [connect]; [ticks] are the callbacks
    given to [process.nextTick] that have not run yet, each with the [to]
    and [data] it closes over. *)
Record t := {
  _sender : Arg;
  registrations : list Registration;
  ticks : list (Arg * Bytes);
  invoked : list Invocation
}.

Definition new : t :=
  {| _sender := Undefined; registrations := []; ticks := []; invoked := [] |}.

(** [connect(signer)]: remembers [signer.address] and returns [this]. *)
Definition connect (address : Arg) (c : t) : t :=
  {| _sender := address; registrations := registrations c;
     ticks := ticks c; invoked := invoked c |}.

(** [sendSignal(to, data)]: the emission is left to the next tick; the
    transaction returned resolves its [wait()] at once. *)
Definition sendSignal (to : Arg) (data : Bytes) (c : t) : t :=
  {| _sender := _sender c; registrations := registrations c;
     ticks := ticks c ++ [(to, data)]; invoked := invoked c |}.

Definition add (r : Registration) (c : t) : t :=
  {| _sender := _sender c; registrations := registrations c ++ [r];
     ticks := ticks c; invoked := invoked c |}.

(** [on(filter, listener)] and [once(filter, listener)]. *)
Definition on (filter : string) (l : Listener) : t -> t :=
  add {| r_name := filter; r_listener := l; r_once := false |}.

Definition once (filter : string) (l : Listener) : t -> t :=
  add {| r_name := filter; r_listener := l; r_once := true |}.

Definition is_for (filter : string) (l : Listener) (r : Registration) : bool :=
  String.eqb (r_name r) filter && Nat.eqb (r_listener r) l.

(** The first matching entry removed. *)
Fixpoint remove_first (filter : string) (l : Listener)
    (rs : list Registration) : list Registration :=
  match rs with
  | [] => []
  | r :: rs' =>
      if is_for filter l r then rs' else r :: remove_first filter l rs'
  end.

(** [off(filter, listener)], that is [removeListener]: the most recently
    added matching entry is removed. *)
Definition off (filter : string) (l : Listener) (c : t) : t :=
  {| _sender := _sender c;
     registrations := rev (remove_first filter l (rev (registrations c)));
     ticks := ticks c; invoked := invoked c |}.

(** [emit(name, sender, to, data, event)]: the listeners of [name] are
    invoked in the order they were added, the [once] ones being removed. *)
Definition emit (name : string) (sender to : Arg) (data : Bytes) (c : t) : t :=
  let hit := List.filter (fun r => String.eqb (r_name r) name)
               (registrations c) in
  {| _sender := _sender c;
     registrations :=
       List.filter (fun r => negb (String.eqb (r_name r) name && r_once r))
         (registrations c);
     ticks := ticks c;
     invoked :=
       invoked c ++
       map (fun r => {| i_listener := r_listener r; i_sender := sender;
                        i_recipient := to; i_data := data |}) hit |}.

(** The next tick callback runs: it reads [this._sender] now. *)
Definition tick (c : t) : t :=
  match ticks c with
  | [] => c
  | (to, data) :: rest =>
      emit (SignalSent (_sender c) to) (_sender c) to data
        {| _sender := _sender c; registrations := registrations c;
           ticks := rest; invoked := invoked c |}
  end.

Inductive Op :=
| Connect (address : Arg)
| SendSignal (to : Arg) (data : Bytes)
| On (filter : string) (l : Listener)
| Once (filter : string) (l : Listener)
| Off (filter : string) (l : Listener)
| Tick.

Definition step (c : t) (op : Op) : t :=
  match op with
  | Connect address => connect address c
  | SendSignal to data => sendSignal to data c
  | On filter l => on filter l c
  | Once filter l => once filter l c
  | Off filter l => off filter l c
  | Tick => tick c
  end.

Definition run (c : t) (ops : list Op) : t := fold_left step ops c.

(** The address of a signer: a string that begins with ["0x"]. *)
Definition is_address (a : Arg) : bool :=
  match a with
  | Str s => String.prefix "0x" s
  | _ => false
  end.

(** The filter begins with a wildcard sender, as that of
    [_startContractListeners] does. *)
Definition wildcard (filter : string) : bool :=
  String.prefix "SignalSent:null:" filter.

End FakeContract.

Section FakeContractInvariants.
Import FakeContract.
Variable l : Listener.

(** [l] is registered under wildcard filters only, has never been invoked,
    and the signer is unset or an address. *)
Definition wildcard_inv (c : t) : Prop :=
  (_sender c = Undefined \/ is_address (_sender c) = true) /\
  (forall r, In r (registrations c) -> r_listener r = l ->
             wildcard (r_name r) = true) /\
  (forall i, In i (invoked c) -> i_listener i <> l).

(** The operations connect addresses only and register [l] under wildcard
    filters only. *)
Definition wildcard_only (op : Op) : Prop :=
  match op with
  | Connect address => is_address address = true
  | On filter l' | Once filter l' => l' = l -> wildcard filter = true
  | _ => True
  end.

End FakeContractInvariants.

(** ** The relay over a sequence of transactions *)

Module Chain.
Import SignalServer.

(** A call of [sendSignal] sent as a transaction. *)
Record Tx := {
  tx_from : address;
  tx_to : address;
  tx_data : bytes
}.

(** The storage and the event log after a transaction: a reverted one
    leaves both as they were. *)
Definition apply (s : Storage * list SignalSent) (tx : Tx)
    : Storage * list SignalSent :=
  match sendSignal (fst s) (tx_from tx) (tx_to tx) (tx_data tx) with
  | Reverted _ => s
  | Succeeded st logs => (st, snd s ++ logs)
  end.

Definition execute (txs : list Tx) : Storage * list SignalSent :=
  fold_left apply txs (tt, []).

Definition accepted (tx : Tx) : bool :=
  negb (tx_to tx =? 0)%N && negb (Nat.eqb (length (tx_data tx)) 0).

Definition event_of (tx : Tx) : SignalSent :=
  {| sender := tx_from tx; recipient := tx_to tx;
     encryptedData := tx_data tx |}.

End Chain.

(** ** An accepted request whose sender the directory does not have *)

Section UnknownSender.
Import Inbound.

Definition unknown_sender_inv (a : t) : Prop :=
  forallb is_engine_call (actions a) = true /\
  match control a with
  | AwaitSendSignal _ | Returned => False
  | _ => True
  end.

End UnknownSender.

(** * Properties *)

(** C8. [sendSignal] reverts exactly when the recipient is the null address
    or the payload is empty; on every other input it succeeds, leaves the
    (empty) storage as it was and emits the single record
    [SignalSent(msg.sender, recipient, payload)]. *)
Theorem sendSignal_spec :
  forall (st : SignalServer.Storage) (caller to : SignalServer.address)
         (data : SignalServer.bytes),
    (SignalServer.reverted (SignalServer.sendSignal st caller to data)
       <-> (to = 0%N \/ data = [])) /\
    (~ (to = 0%N \/ data = []) ->
     SignalServer.sendSignal st caller to data =
       SignalServer.Succeeded st
         [ {| SignalServer.sender := caller;
              SignalServer.recipient := to;
              SignalServer.encryptedData := data |} ]).
Proof.
  intros st caller to data. unfold SignalServer.sendSignal.
  destruct (N.eqb_spec to 0) as [->|Hto]; [simpl; tauto|].
  destruct data as [|b data]; simpl; [tauto|].
  split; [|reflexivity].
  split; [intros []|]. intros [?|?]; congruence.
Qed.


(** ** Base64 round trip *)

Section Base64Facts.
Import Base64.

Lemma sextet_cases (P : N -> Prop) :
  Forall P (map N.of_nat (seq 0 64)) -> forall n, (n < 64)%N -> P n.
Proof.
  intros HP n Hn. rewrite Forall_forall in HP. apply HP.
  apply list_elem_of_In, in_map_iff. exists (N.to_nat n). split; [lia|].
  apply in_seq. lia.
Qed.

Lemma value_of_char_of n :
  (n < 64)%N ->
  value_of (char_of n) = Some n /\ Ascii.eqb (char_of n) pad = false.
Proof.
  revert n. apply sextet_cases.
  repeat (apply Forall_cons; split; [split; vm_compute; reflexivity|]).
  apply Forall_nil. exact I.
Qed.

Lemma sextets_char_of n s :
  (n < 64)%N -> sextets (char_of n :: s) = n :: sextets s.
Proof.
  intros Hn. destruct (value_of_char_of n Hn) as [Hv Hp].
  cbn [sextets]. now rewrite Hp, Hv.
Qed.

Lemma sextets_pad s : sextets (pad :: s) = [].
Proof. reflexivity. Qed.

Lemma triples_ind (P : list N -> Prop) :
  P [] -> (forall a, P [a]) -> (forall a b, P [a; b]) ->
  (forall a b c l, P l -> P (a :: b :: c :: l)) ->
  forall l, P l.
Proof.
  intros H0 H1 H2 H3 l.
  assert (H : forall n l, (length l <= n)%nat -> P l).
  { clear l. induction n as [|n IH]; intros l Hl.
    - destruct l; [exact H0|simpl in Hl; lia].
    - destruct l as [|a [|b [|c l]]]; auto.
      apply H3, IH. simpl in Hl. lia. }
  apply (H (length l)). lia.
Qed.

Ltac euclid := zify; Z.to_euclidean_division_equations; lia.

Lemma decode_encode_N l :
  Forall (fun a => (a < 256)%N) l -> decode_N (sextets (encode_N l)) = l.
Proof.
  induction l as [|a|a b|a b c l IH] using triples_ind; intros Hl.
  - reflexivity.
  - apply Forall_cons_1 in Hl as [Ha _].
    cbn [encode_N].
    rewrite !sextets_char_of, sextets_pad by euclid.
    cbn [decode_N]. f_equal. euclid.
  - apply Forall_cons_1 in Hl as [Ha Hl]. apply Forall_cons_1 in Hl as [Hb _].
    cbn [encode_N].
    rewrite !sextets_char_of, sextets_pad by euclid.
    cbn [decode_N]. f_equal; [euclid|]. f_equal. euclid.
  - apply Forall_cons_1 in Hl as [Ha Hl]. apply Forall_cons_1 in Hl as [Hb Hl].
    apply Forall_cons_1 in Hl as [Hc Hl].
    cbn [encode_N].
    rewrite !sextets_char_of by euclid.
    cbn [decode_N]. rewrite (IH Hl).
    f_equal; [euclid|]. f_equal; [euclid|]. f_equal. euclid.
Qed.

Lemma to_uint8_to_N b : to_uint8 (Byte.to_N b) = b.
Proof.
  unfold to_uint8. pose proof (Byte.to_N_bounded b).
  rewrite N.mod_small by lia. now rewrite Byte.of_to_N.
Qed.

(** [Buffer.from(Buffer.from(f).toString("base64"), "base64")] has the bytes
    of [f]. *)
Lemma decode_encode (buf : list byte) : decode (encode buf) = buf.
Proof.
  unfold decode, encode.
  rewrite list_ascii_of_string_of_list_ascii, decode_encode_N.
  - rewrite map_map. rewrite <- (map_id buf) at 2.
    apply map_ext, to_uint8_to_N.
  - apply Forall_forall. intros a Ha.
    apply list_elem_of_In, in_map_iff in Ha as (b & <- & _).
    pose proof (Byte.to_N_bounded b). lia.
Qed.

Lemma encode_nonempty b buf : encode (b :: buf) <> EmptyString.
Proof.
  unfold encode. destruct buf as [|b1 [|b2 buf]]; discriminate.
Qed.

End Base64Facts.

(** ** JSON round trip of a payload object *)

Section JsonFacts.
Import Json.

Lemma parse_chars_escape c tail :
  parse_chars (escape c ++ tail) = cons_fst c <$> parse_chars tail.
Proof. destruct c as [[] [] [] [] [] [] [] []]; reflexivity. Qed.

Lemma parse_chars_escaped s rest :
  parse_chars (flat_map escape s ++ dquote :: rest) = Some (s, rest).
Proof.
  induction s as [|c s IH]; [reflexivity|].
  cbn [flat_map]. rewrite <- app_assoc, parse_chars_escape, IH. reflexivity.
Qed.

Lemma quote_app s rest :
  quote s ++ rest =
  dquote :: flat_map escape (list_ascii_of_string s) ++ dquote :: rest.
Proof. unfold quote. cbn [app]. now rewrite <- app_assoc. Qed.

Lemma skip_ws_dquote s : skip_ws (dquote :: s) = dquote :: s.
Proof. reflexivity. Qed.

Lemma expect_same c s : expect c (c :: s) = Some s.
Proof. unfold expect. now rewrite Ascii.eqb_refl. Qed.

Lemma parse_string_quote s rest :
  parse_string (skip_ws (quote s ++ rest)) = Some (s, rest).
Proof.
  rewrite quote_app, skip_ws_dquote. unfold parse_string.
  rewrite expect_same. cbn [mbind option_bind].
  rewrite parse_chars_escaped. cbn [mbind option_bind fst snd].
  now rewrite string_of_list_ascii_of_string.
Qed.

Lemma strip_prefix_dquote p0 p s :
  strip_prefix (p0 :: p) (dquote :: s) =
  if Ascii.eqb p0 dquote then strip_prefix p s else None.
Proof. reflexivity. Qed.

Lemma parse_value_quote s rest :
  parse_value (skip_ws (quote s ++ rest)) = Some (JString s, rest).
Proof.
  pose proof (parse_string_quote s rest) as H.
  rewrite quote_app, skip_ws_dquote in *. unfold parse_value.
  cbn [list_ascii_of_string]. rewrite !strip_prefix_dquote.
  change (Ascii.eqb "n" dquote) with false.
  change (Ascii.eqb "t" dquote) with false.
  change (Ascii.eqb "f" dquote) with false.
  cbv iota. now rewrite H.
Qed.

(** One member [k : v] followed by a comma continues with the next member;
    followed by the closing brace it ends the object. *)
Lemma parse_members_comma fuel acc k v rest :
  parse_members (S fuel) acc
    (stringify_member (k, JString v) ++ ","%char :: rest) =
  parse_members fuel (<[k := JString v]> acc) rest.
Proof.
  unfold stringify_member; cbn [fst snd stringify_value parse_members].
  rewrite <- app_assoc, parse_string_quote; cbn [mbind option_bind fst snd].
  cbn [app]. change (skip_ws (":"%char :: ?x)) with (":"%char :: x).
  rewrite expect_same. cbn [mbind option_bind].
  rewrite parse_value_quote; cbn [mbind option_bind fst snd].
  reflexivity.
Qed.

Lemma parse_members_close fuel acc k v rest :
  parse_members (S fuel) acc
    (stringify_member (k, JString v) ++ "}"%char :: rest) =
  Some (<[k := JString v]> acc, rest).
Proof.
  unfold stringify_member; cbn [fst snd stringify_value parse_members].
  rewrite <- app_assoc, parse_string_quote; cbn [mbind option_bind fst snd].
  cbn [app]. change (skip_ws (":"%char :: ?x)) with (":"%char :: x).
  rewrite expect_same. cbn [mbind option_bind].
  rewrite parse_value_quote; cbn [mbind option_bind fst snd].
  reflexivity.
Qed.

Lemma stringify_member_head kv rest :
  expect "}"%char (skip_ws (stringify_member kv ++ rest)) = None /\
  exists n, length (stringify_member kv ++ rest) = S n.
Proof. unfold stringify_member, quote. cbn [app length]. eauto. Qed.

Lemma parse_stringify_one k v :
  parse (stringify [(k, JString v)]) = Some {[ k := JString v ]}.
Proof.
  unfold parse, stringify.
  rewrite list_ascii_of_string_of_list_ascii.
  change (skip_ws ("{"%char :: ?x)) with ("{"%char :: x).
  rewrite expect_same. cbn [mbind option_bind stringify_members].
  destruct (stringify_member_head (k, JString v) ["}"%char]) as [-> [n ->]].
  rewrite parse_members_close. reflexivity.
Qed.

Lemma parse_stringify_two k1 v1 k2 v2 :
  parse (stringify [(k1, JString v1); (k2, JString v2)]) =
  Some (<[k2 := JString v2]> {[ k1 := JString v1 ]}).
Proof.
  unfold parse, stringify.
  rewrite list_ascii_of_string_of_list_ascii.
  change (skip_ws ("{"%char :: ?x)) with ("{"%char :: x).
  rewrite expect_same. cbn [mbind option_bind stringify_members].
  rewrite <- app_assoc. cbn [app].
  destruct (stringify_member_head (k1, JString v1)
              (","%char :: stringify_member (k2, JString v2) ++ ["}"%char]))
    as [-> [n Hn]].
  rewrite Hn, parse_members_comma.
  destruct n as [|n].
  { rewrite length_app in Hn. cbn [length] in Hn.
    destruct (stringify_member_head (k2, JString v2) ["}"%char])
      as [_ [m Hm]]. rewrite Hm in Hn. lia. }
  rewrite parse_members_close. reflexivity.
Qed.

End JsonFacts.

(** ** [DataStream] *)

(** C10, as the code has it.  The payload written by [respond message file]
    makes the receiving stream call every message handler with [message],
    and, when a file of at least one byte was given, every file handler
    with the bytes of that file; for an absent or an empty file no file
    handler is called. *)
Theorem respond_onmessage_roundtrip :
  forall (ds : DataStream.t) (message : string) (file : option (list byte)),
    DataStream.onmessage ds (DataStream.respond message file) =
    map (fun cb => DataStream.MessageCall cb (Json.JString message))
        (DataStream._messageHandlers ds) ++
    match file with
    | Some (b :: f) =>
        map (fun cb => DataStream.FileCall cb (b :: f))
            (DataStream._fileHandlers ds)
    | Some [] | None => []
    end.
Proof.
  intros ds message file. unfold DataStream.onmessage, DataStream.respond.
  destruct file as [f|]; cbn [app].
  - rewrite parse_stringify_two.
    rewrite lookup_insert_eq.
    rewrite (lookup_insert_ne _ "file" "message") by done.
    rewrite lookup_singleton_eq.
    destruct f as [|b f].
    + cbn. now rewrite app_nil_r.
    + unfold Json.truthy.
      destruct (String.eqb_spec (Base64.encode (b :: f)) EmptyString) as [E|_].
      * now apply encode_nonempty in E.
      * cbn [negb]. now rewrite decode_encode.
  - rewrite parse_stringify_one.
    rewrite lookup_singleton_eq, lookup_singleton_ne by done.
    now rewrite app_nil_r.
Qed.

(** C10 as stated fails for an empty file: the sender writes the property
    [file] with the empty base64 text, which the receiver takes as no file,
    and the registered file handler (7 here) is not called. *)
Lemma respond_empty_file_not_delivered :
  DataStream.onmessage
    (DataStream.onFile 7 (DataStream.onMessage 2 (DataStream.new "0xB0b")))
    (DataStream.respond "hi" (Some [])) =
  [DataStream.MessageCall 2 (Json.JString "hi")].
Proof. vm_compute. reflexivity. Qed.

(** ** Outbound attempts *)

Section OutboundFacts.
Import Outbound.
Variable codec : Codec.
Variable sdk : Sdk.

Lemma submissions_app l1 l2 :
  submissions (l1 ++ l2) = submissions l1 ++ submissions l2.
Proof. apply List.filter_app. Qed.

Lemma attempt_inv_init to : attempt_inv (requestHelp to).
Proof. repeat split. Qed.

Ltac break_goal :=
  match goal with
  | |- context [match ?x with _ => _ end] => destruct x eqn:?
  | |- context [if ?b then _ else _] => destruct b eqn:?
  end.

Ltac unfold_step :=
  unfold begin_send, after_send, _sendSignal, send_step, resume_answer,
    next_candidate, settle, return_p2pPromise, throw, local_sdp,
    gathering_complete;
  cbn [control p2pPromise subscription timer onAnswer actions delivered
       Outbound.pc toAddr candidates fst snd localDescription
       remoteDescription remoteCandidates iceGatheringState
       deliver call with_pc
    with_candidates with_control with_p2pPromise with_subscription
    with_timer with_onAnswer set_local
    set_remote set_gathering add_remote_candidate].

Ltac proj_simpl :=
  cbn [control p2pPromise subscription timer onAnswer actions delivered
       Outbound.pc toAddr candidates fst snd localDescription
       remoteDescription remoteCandidates iceGatheringState
       deliver call with_pc
    with_candidates with_control with_p2pPromise with_subscription
    with_timer with_onAnswer set_local
    set_remote set_gathering add_remote_candidate] in *.

Ltac use_eqs :=
  repeat match goal with
  | E : ?x = _, H : context [match ?x with _ => _ end] |- _ => rewrite E in H
  | E : ?x = _ |- context [match ?x with _ => _ end] => rewrite E
  end.

Ltac finish_inv :=
  proj_simpl;
  repeat match goal with
  | |- context [match control ?o with _ => _ end] =>
      destruct (control o) as [| | |[]| |] eqn:?
  end;
  use_eqs;
  rewrite ?submissions_app, ?length_app, ?app_nil_r, ?Nat.add_0_r in *;
  cbn [submissions List.filter is_submission length app] in *;
  destruct_and?;
  repeat match goal with
  | E : ?l = _ |- context [?l] => rewrite E
  end;
  cbn [length app];
  intuition (try congruence; try lia; try discriminate).

Lemma attempt_inv_step o ev : attempt_inv o -> attempt_inv (step codec sdk o ev).
Proof.
  intros H.
  destruct ev; cbn [step]; try exact H.
  all: unfold_step.
  all: repeat (break_goal; unfold_step; try exact H).
  all: unfold attempt_inv, pristine in *.
  all: finish_inv.
Qed.

Lemma run_app o evs1 evs2 :
  run codec sdk o (evs1 ++ evs2) = run codec sdk (run codec sdk o evs1) evs2.
Proof. apply fold_left_app. Qed.

Lemma run_preserves (P : t -> Prop) :
  (forall o ev, P o -> P (step codec sdk o ev)) ->
  forall evs o, P o -> P (run codec sdk o evs).
Proof.
  intros Hstep evs. induction evs as [|ev evs IH]; intros o Ho; [exact Ho|].
  apply IH, Hstep, Ho.
Qed.

Lemma attempt_inv_run to evs : attempt_inv (run codec sdk (requestHelp to) evs).
Proof. apply run_preserves; [apply attempt_inv_step|apply attempt_inv_init]. Qed.





Lemma timed_out_step o ev :
  timed_out o ->
  timed_out (step codec sdk o ev) /\
  (onAnswer o = None ->
   onAnswer (step codec sdk o ev) = None /\
   remoteDescription (pc (step codec sdk o ev)) = remoteDescription (pc o)).
Proof.
  intros (Hc & Ht & Hs & Hp). unfold timed_out.
  destruct ev; cbn [step]; try (repeat split; assumption).
  all: unfold_step; rewrite ?Hc, ?Ht, ?Hs, ?Hp; proj_simpl.
  all: try (repeat split; assumption).
  all: repeat (break_goal; unfold_step; rewrite ?Hc, ?Ht, ?Hs, ?Hp; proj_simpl;
               try (repeat split; assumption)).
  all: intuition congruence.
Qed.

Lemma timed_out_run o evs :
  timed_out o -> onAnswer o = None ->
  timed_out (run codec sdk o evs) /\
  onAnswer (run codec sdk o evs) = None /\
  remoteDescription (pc (run codec sdk o evs)) = remoteDescription (pc o).
Proof.
  revert o. induction evs as [|ev evs IH]; intros o Ho Ha; [easy|].
  cbn [run fold_left].
  destruct (timed_out_step o ev Ho) as [Ho' Ha'].
  destruct (Ha' Ha) as [Ha1 Ha2].
  destruct (IH _ Ho' Ha1) as (? & ? & ?). unfold run in *.
  split; [assumption|split; [assumption|congruence]].
Qed.


Lemma timer_expiry o :
  attempt_inv o -> timer o = TimerArmed -> p2pPromise o = None ->
  timed_out (step codec sdk o TimerExpired).
Proof.
  intros Hinv Ht Hp. unfold attempt_inv, pristine in Hinv.
  cbn [step]. rewrite Ht. unfold settle. proj_simpl. rewrite Hp. proj_simpl.
  destruct (control o) as [| | |[]| |] eqn:Hc; destruct_and?; try congruence;
    try contradiction.
  unfold timed_out. proj_simpl.
  destruct (subscription o); repeat split; congruence.
Qed.

Lemma awaiting_reply o :
  attempt_inv o -> timer o = TimerArmed -> remoteDescription (pc o) = None ->
  control o = Returned /\ p2pPromise o = None /\ delivered o = [] /\
  length (submissions (actions o)) = 1.
Proof.
  intros Hinv Ht Hr. unfold attempt_inv, pristine in Hinv.
  destruct (control o) as [| | |[]| |] eqn:Hc; destruct_and?; try congruence;
    try contradiction.
  assert (Hp : p2pPromise o = None).
  { destruct (p2pPromise o) as [[s|e]|] eqn:Hp; [| |reflexivity].
    - match goal with H : _ -> _ \/ _ |- _ => destruct (H Hr); congruence end.
    - match goal with H : forall e, _ -> _ |- _ => specialize (H e eq_refl) end.
      congruence. }
  rewrite Hp in *. auto.
Qed.

Lemma timed_out_delivered o :
  attempt_inv o -> timed_out o ->
  delivered o = [Rejected HelpResponseTimeout] /\
  length (submissions (actions o)) = 1.
Proof.
  intros Hinv (Hc & Ht & Hs & Hp). unfold attempt_inv in Hinv.
  rewrite Hc, Hp in Hinv. destruct_and?. auto.
Qed.


Lemma unsubscribed_ignores o sender recipient enc :
  subscription o = Unsubscribed ->
  step codec sdk o (SignalSent sender recipient enc) = o.
Proof. intros H. cbn [step]. now rewrite H. Qed.

(** C3. When the timer expires on an attempt that is still subscribed for
    its reply, the subscription is removed and the attempt is rejected; a
    relay event delivered afterwards changes nothing, and whatever the later
    inputs [onAnswer] is never called, the engine is given no remote
    description and the attempt stays rejected with [HelpResponseTimeout]. *)
Theorem late_reply_discarded :
  forall (to : Address) (evs1 evs2 : list Event),
    timer (run codec sdk (requestHelp to) evs1) = TimerArmed ->
    subscription (run codec sdk (requestHelp to) evs1) = Subscribed ->
    let o2 := step codec sdk (run codec sdk (requestHelp to) evs1) TimerExpired in
    let o3 := run codec sdk o2 evs2 in
    subscription o2 = Unsubscribed /\
    delivered o2 = [Rejected HelpResponseTimeout] /\
    (forall sender recipient enc,
       step codec sdk o3 (SignalSent sender recipient enc) = o3) /\
    subscription o3 = Unsubscribed /\
    onAnswer o3 = None /\
    remoteDescription (pc o3) = None /\
    delivered o3 = [Rejected HelpResponseTimeout].
Proof.
  intros to evs1 evs2 Harmed Hsub o2 o3.
  pose proof (attempt_inv_run to evs1) as Hinv1.
  set (o1 := run codec sdk (requestHelp to) evs1) in *.
  assert (Hans : onAnswer o1 = None /\ remoteDescription (pc o1) = None).
  { unfold attempt_inv, pristine in Hinv1.
    destruct (control o1) as [| | |[]| |]; destruct_and?; try congruence;
      try contradiction; auto. }
  destruct Hans as [Hans Hrd].
  destruct (awaiting_reply _ Hinv1 Harmed Hrd) as (_ & Hp & _).
  pose proof (timer_expiry _ Hinv1 Harmed Hp) as Hto2.
  assert (Hinv2 : attempt_inv o2) by now apply attempt_inv_step.
  assert (Ha2 : onAnswer o2 = None /\ remoteDescription (pc o2) = None).
  { unfold o2. cbn [step]. rewrite Harmed. unfold settle. proj_simpl.
    rewrite Hp. proj_simpl. destruct (control o1); auto. }
  destruct Ha2 as [Ha2 Hr2].
  destruct (timed_out_run o2 evs2 Hto2 Ha2) as (Hto3 & Ha3 & Hr3).
  assert (Hinv3 : attempt_inv o3).
  { unfold o3. apply run_preserves; [apply attempt_inv_step|exact Hinv2]. }
  destruct (timed_out_delivered o2 Hinv2 Hto2) as [Hd2 _].
  destruct (timed_out_delivered o3 Hinv3 Hto3) as [Hd3 _].
  destruct Hto2 as (_ & _ & Hs2 & _). pose proof Hto3 as (_ & _ & Hs3 & _).
  split; [exact Hs2|]. split; [exact Hd2|].
  split; [intros; now apply unsubscribed_ignores|].
  split; [exact Hs3|]. split; [exact Ha3|].
  split; [unfold o3; now rewrite Hr3|exact Hd3].
Qed.




(** *** An address the directory does not have *)

Lemma unknown_inv_step to o ev :
  peerPublicKeys sdk !! to = None ->
  unknown_inv to o -> unknown_inv to (step codec sdk o ev).
Proof.
  intros Hunk Hinv. pose proof Hinv as (Hto & Hacts & Hp & H).
  assert (Hget : _getPeerPubKey sdk (toAddr o) = inl (NoPublicKeyForPeer to)).
  { unfold _getPeerPubKey. now rewrite Hto, Hunk. }
  destruct Hp as (Hp1 & Hp2 & Hp3 & Hp4 & Hp5).
  destruct (control o) as [|offer|offer|s| |e] eqn:Hc; try contradiction.
  all: destruct ev; cbn [step]; rewrite ?Hc, ?Hp2, ?Hp3, ?Hp4, ?Hp5;
       try exact Hinv.
  all: try match goal with s : GatheringState |- _ => destruct s end.
  all: try match goal with c : option Candidate |- _ => destruct c end.
  all: try exact Hinv.
  all: unfold begin_send, _sendSignal, local_sdp; proj_simpl;
       rewrite ?Hget; unfold after_send, throw; proj_simpl.
  all: unfold unknown_inv, pristine, gathering_complete in *; proj_simpl;
       rewrite ?Hc; proj_simpl.
  all: repeat match goal with
       | |- context [match ?x with _ => _ end] => destruct x eqn:?
       | |- context [if ?b then _ else _] => destruct b eqn:?
       end; proj_simpl; rewrite ?Hc, ?Hget; proj_simpl.
  all: rewrite ?forallb_app, ?Hacts; cbn [forallb is_engine_call andb].
  all: destruct_and?.
  all: repeat match goal with
       | E : ?l = _ |- context [?l] => rewrite E
       end; cbn [app].
  all: use_eqs; simplify_eq.
  all: try match goal with
       | H : match localDescription ?p with _ => _ end = _ |- _ =>
           destruct (localDescription p) eqn:?; simplify_eq
       end.
  all: intuition (try congruence; eauto).
Qed.

Lemma unknown_inv_run to evs :
  peerPublicKeys sdk !! to = None ->
  unknown_inv to (run codec sdk (requestHelp to) evs).
Proof.
  intros Hunk. apply run_preserves.
  - intros o ev. now apply unknown_inv_step.
  - repeat split.
Qed.

(** C6, as the code has it.  For an address the directory does not have,
    [requestHelp] never calls the cipher or the relay, never subscribes and
    never arms its timer; it can only fail, with the engine's error when
    the engine fails first and with the unknown-peer error otherwise; and
    once the local description is set and candidate gathering is complete
    it has failed with the unknown-peer error.  The send it then makes,
    [_sendSignal], throws that error before its first await. *)
Theorem requestHelp_unknown_peer :
  forall (to : Address) (evs : list Event),
    peerPublicKeys sdk !! to = None ->
    let o := run codec sdk (requestHelp to) evs in
    submissions (actions o) = [] /\
    forallb is_engine_call (actions o) = true /\
    subscription o = NotSubscribed /\ timer o = TimerUnset /\
    (forall r, resolution o = Some r ->
       r = Rejected (NoPublicKeyForPeer to) \/
       exists m, r = Rejected (EngineError m)) /\
    (localDescription (pc o) <> None -> gathering_complete (pc o) = true ->
     delivered o = [Rejected (NoPublicKeyForPeer to)]) /\
    (forall descObj,
       _sendSignal sdk to descObj = (SendThrew (NoPublicKeyForPeer to), [])).
Proof.
  intros to evs Hunk. cbv zeta.
  assert (Hsend : forall descObj,
            _sendSignal sdk to descObj =
            (SendThrew (NoPublicKeyForPeer to), [])).
  { intros descObj. unfold _sendSignal, _getPeerPubKey. now rewrite Hunk. }
  pose proof (unknown_inv_run to evs Hunk) as Hinv.
  generalize dependent (run codec sdk (requestHelp to) evs). intros o Hinv.
  destruct Hinv as (_ & Hacts & Hp & H). destruct Hp as (_ & Hs & Ht & _).
  split.
  { clear -Hacts. unfold submissions.
    induction (actions o) as [|a l IH]; [reflexivity|].
    cbn [forallb] in Hacts. apply andb_prop in Hacts as [Ha Hl].
    cbn [List.filter]. destruct a; try discriminate; cbn; auto. }
  split; [exact Hacts|]. split; [exact Hs|]. split; [exact Ht|].
  unfold resolution.
  destruct (control o) as [|offer|offer|s| |e]; try contradiction;
    destruct_and?.
  all: repeat match goal with E : delivered _ = _ |- _ => rewrite E end.
  all: split; [cbn [last]; intros r Hr; try discriminate
              |split; [intros; try congruence|exact Hsend]].
  - injection Hr as <-.
    match goal with H : _ \/ _ |- _ => destruct H as [->|[[m ->] _]] end; eauto.
  - match goal with H : _ \/ _ |- _ => destruct H as [->|[_ ?]] end;
      [reflexivity|congruence].
Qed.

End OutboundFacts.



Lemma late_reply_discarded_witness :
  Outbound.delivered
    (Outbound.run toy alice
       (Outbound.step toy alice
          (Outbound.run toy alice (Outbound.requestHelp "0xB0b") offer_sent)
          TimerExpired)
       (bobs_answer :: answer_applied)) =
    [Outbound.Rejected HelpResponseTimeout].
Proof.
  apply (late_reply_discarded toy alice "0xB0b" offer_sent
           (bobs_answer :: answer_applied)); vm_compute; reflexivity.
Defined.



(** C6 as stated fails on "immediately": when [requestHelp] returns for an
    address the directory does not have, nothing has failed yet; the
    attempt waits for the engine's offer, then for candidate gathering, and
    an engine failure in between is what the caller is told. *)
Lemma unknown_peer_not_rejected_at_once :
  Outbound.delivered (Outbound.requestHelp "0xCar01") = [] /\
  Outbound.control (Outbound.requestHelp "0xCar01") =
    Outbound.AwaitCreateOffer /\
  Outbound.delivered
    (Outbound.run toy alice (Outbound.requestHelp "0xCar01")
       [CreateOfferDone alice_offer; SetLocalDescriptionDone;
        IceCandidate (Some "cand-a")]) = [] /\
  Outbound.delivered
    (Outbound.run toy alice (Outbound.requestHelp "0xCar01")
       [CreateOfferFailed "closed"]) =
    [Outbound.Rejected (EngineError "closed")] /\
  Outbound.delivered
    (Outbound.run toy alice (Outbound.requestHelp "0xCar01")
       [CreateOfferDone alice_offer; SetLocalDescriptionDone;
        IceCandidate (Some "cand-a");
        IceGatheringStateChange GatheringComplete]) =
    [Outbound.Rejected (NoPublicKeyForPeer "0xCar01")].
Proof. vm_compute. repeat split. Qed.

Lemma requestHelp_unknown_peer_witness :
  submissions (Outbound.actions
    (Outbound.run toy alice (Outbound.requestHelp "0xCar01")
       [CreateOfferDone alice_offer; SetLocalDescriptionDone;
        IceGatheringStateChange GatheringComplete; EncryptDone [];
        SendSignalDone; TxWaitDone; TimerExpired])) = [].
Proof.
  apply (requestHelp_unknown_peer toy alice "0xCar01"
           [CreateOfferDone alice_offer; SetLocalDescriptionDone;
            IceGatheringStateChange GatheringComplete; EncryptDone [];
            SendSignalDone; TxWaitDone; TimerExpired]).
  vm_compute. reflexivity.
Defined.

(** ** Accepted inbound attempts *)

Section InboundFacts.
Import Inbound.
Variable sdk : Sdk.
Variable req : RequestForHelp.


















End InboundFacts.


(** ** Construction *)

(** C5 on [sdk/SignalServerSDK.js]: the constructor has no check of the
    directory.  With an empty directory, given or defaulted, it returns an
    instance whose directory is empty and has subscribed the persistent
    listener. *)
Theorem constructor_accepts_empty_directory :
  forall (wallet : Address) (key : PrivateKey)
         (directory : option (gmap Address PublicKey)),
    directory = None \/ directory = Some ∅ ->
    exists sdk,
      SignalServerSdk.constructor
        {| opt_wallet := Some wallet; opt_encryptionIdentity := Some key;
           opt_peerPublicKeys := directory; opt_timeoutMs := None |} =
        {| outcome := inr sdk;
           subscriptions := [ {| f_sender := None; f_recipient := wallet |} ] |} /\
      peerPublicKeys sdk = ∅.
Proof.
  intros wallet key directory [-> | ->]; eexists; split; reflexivity.
Qed.

Lemma constructor_accepts_empty_directory_witness :
  exists sdk,
    SignalServerSdk.constructor
      {| opt_wallet := Some "0xA11ce"; opt_encryptionIdentity := Some "alice";
         opt_peerPublicKeys := Some ∅; opt_timeoutMs := None |} =
      {| outcome := inr sdk;
         subscriptions := [ {| f_sender := None; f_recipient := "0xA11ce" |} ] |} /\
    peerPublicKeys sdk = ∅.
Proof.
  apply (constructor_accepts_empty_directory "0xA11ce" "alice" (Some ∅)).
  right. reflexivity.
Defined.

(** The embedded constructor does what C5 says: an omitted or empty
    directory throws before anything is subscribed, and an instance that is
    constructed has a non-empty directory. *)
Lemma embedded_constructor_requires_directory :
  forall (createRandom : Address) (createIdentity : PrivateKey) (opts : Options),
    ((opt_peerPublicKeys opts = None \/ opt_peerPublicKeys opts = Some ∅) ->
     EmbeddedSdk.constructor createRandom createIdentity opts =
       {| outcome := inl PeerPublicKeysRequired; subscriptions := [] |}) /\
    (forall sdk,
       outcome (EmbeddedSdk.constructor createRandom createIdentity opts) =
         inr sdk ->
       peerPublicKeys sdk <> ∅).
Proof.
  intros createRandom createIdentity opts. unfold EmbeddedSdk.constructor.
  split.
  - intros [-> | ->]; reflexivity.
  - intros sdk. destruct (opt_peerPublicKeys opts) as [directory|];
      [|discriminate].
    destruct (Nat.eqb_spec (size directory) 0) as [E|E]; [discriminate|].
    intros [= <-]. cbn. intros ->. apply E, map_size_empty.
Qed.

(** ** The persistent listener *)

(** C9. When a suspended call of the listener resumes on an offer and no
    help callback is registered at that point, the call ends without
    effect: the facade is left as it was, less that call; no
    [RequestForHelp] is made, and registering a callback afterwards
    delivers nothing. *)
Theorem unhandled_offer_is_dropped :
  forall (codec : Codec) (f : Facade.t) (k : nat) (sender : Address)
         (enc : Bytes) (msg : Envelope),
    Facade.suspended f !! k = Some (sender, enc) ->
    read_payload codec (Facade.sdk f) enc = inr msg ->
    e_type msg = "offer" ->
    _helpCb (Facade.sdk f) = None ->
    let f' := Facade.step codec f (Facade.Resumed k) in
    f' = {| Facade.sdk := Facade.sdk f;
            Facade.suspended := delete k (Facade.suspended f);
            Facade.requests := Facade.requests f |} /\
    forall cb,
      Facade.requests (Facade.step codec f' (Facade.OnHelpRequest cb)) =
        Facade.requests f /\
      Facade.suspended (Facade.step codec f' (Facade.OnHelpRequest cb)) =
        delete k (Facade.suspended f).
Proof.
  intros codec f k sender enc msg Hk Hread Htype Hcb f'.
  assert (E : f' = {| Facade.sdk := Facade.sdk f;
                      Facade.suspended := delete k (Facade.suspended f);
                      Facade.requests := Facade.requests f |}).
  { unfold f'. cbn [Facade.step]. unfold Facade.resume.
    rewrite Hk, Hread, Htype, Hcb. cbn. now rewrite app_nil_r. }
  split; [exact E|]. intros cb. rewrite E. split; reflexivity.
Qed.

Lemma unhandled_offer_is_dropped_witness :
  Facade.run toy bob_facade
    [alices_offer; Facade.Resumed 0; Facade.OnHelpRequest 1] =
  Facade.step toy bob_facade (Facade.OnHelpRequest 1).
Proof.
  pose proof (unhandled_offer_is_dropped toy
                (Facade.step toy bob_facade alices_offer) 0 "0xA11ce"
                (toy_seal "bob" "offer") toy_offer
                eq_refl eq_refl eq_refl eq_refl) as [H _].
  cbn [Facade.run fold_left]. rewrite H. reflexivity.
Defined.

(** The test is made when the call resumes, not when the event arrives: a
    callback registered while the payload is being decrypted gets the
    request. *)
Lemma callback_registered_while_decrypting :
  Facade.requests
    (Facade.run toy bob_facade
       [alices_offer; Facade.OnHelpRequest 1; Facade.Resumed 0]) =
  [(1, alices_request)].
Proof. vm_compute. reflexivity. Qed.

(** ** The send queue *)

Section QueueFacts.
Import SendQueue.
Variable sdk : Sdk.

Lemma follows_may_follow prev j : follows prev j -> may_follow prev j.
Proof. destruct prev, j; cbn; intros; subst; auto; contradiction. Qed.

Lemma settled_loose prev l : settled prev l -> loose prev l.
Proof.
  revert prev. induction l as [|c l IH]; intros prev; [easy|].
  intros [H1 H2]. split; [now apply follows_may_follow|now apply IH].
Qed.

Lemma pending_loose p l : settled Pending l -> loose p l.
Proof.
  destruct l as [|c l]; [easy|]. intros [H1 H2].
  destruct (c_job c) eqn:E; try contradiction.
  cbn [loose]. rewrite E. split; [exact I|]. now apply settled_loose.
Qed.

Lemma loose_pending p l : loose Pending l -> loose p l.
Proof.
  destruct l as [|c l]; [easy|]. intros [H1 H2].
  destruct (c_job c) eqn:E; try discriminate.
  cbn [loose]. rewrite E. split; [exact I|exact H2].
Qed.

Lemma settle_settled prev l : loose prev l -> settled prev (settle sdk prev l).
Proof.
  revert prev. induction l as [|c l IH]; intros prev; [easy|].
  intros [H1 H2]. cbn [settle settled].
  destruct (c_job c) eqn:E; cbn [may_follow] in H1.
  - cbn [promise_of] in H2.
    destruct prev; cbn [start with_job c_job fst]; rewrite ?E.
    + split; [exact I|]. apply IH, H2.
    + split; [exact I|]. apply IH. now apply loose_pending.
    + split; [reflexivity|]. apply IH. now apply loose_pending.
  - subst prev. rewrite E. split; [exact I|]. now apply IH.
  - subst prev. rewrite E. split; [reflexivity|]. now apply IH.
Qed.

(** Settling a settled queue changes nothing. *)
Lemma settle_id prev l : settled prev l -> settle sdk prev l = l.
Proof.
  revert prev. induction l as [|c l IH]; intros prev; [easy|].
  intros [H1 H2]. cbn [settle].
  destruct (c_job c) eqn:E; destruct prev; try contradiction;
    rewrite ?E; f_equal; now apply IH.
Qed.

(** Settling changes waiting calls only. *)
Lemma settle_lookup prev l k c :
  l !! k = Some c -> c_job c <> Waiting -> settle sdk prev l !! k = Some c.
Proof.
  revert prev k. induction l as [|c0 l IH]; intros prev k; [easy|].
  destruct k as [|k]; cbn [settle].
  - intros [= ->] Hj. destruct (c_job c) eqn:E; [congruence|reflexivity..].
  - intros Hk Hj. now apply IH.
Qed.

Lemma settle_lookup_inv prev l k c' :
  settle sdk prev l !! k = Some c' ->
  exists c, l !! k = Some c /\ (c_job c = Waiting \/ c' = c).
Proof.
  revert prev k. induction l as [|c0 l IH]; intros prev k; [easy|].
  destruct k as [|k]; cbn [settle].
  - intros [= <-]. exists c0. split; [reflexivity|].
    destruct (c_job c0) eqn:E; auto.
  - intros Hk. now apply IH in Hk.
Qed.

(** A running call stands after calls that were all accepted. *)
Lemma settled_running prev l j c s :
  settled prev l -> l !! j = Some c -> c_job c = Running s ->
  prev = Fulfilled /\
  forall i, i < j -> exists ci, l !! i = Some ci /\ c_job ci = Running Sent.
Proof.
  revert prev j. induction l as [|c0 l IH]; intros prev j; [easy|].
  intros [H1 H2] Hj Hs. destruct j as [|j].
  - injection Hj as ->. rewrite Hs in H1.
    split; [destruct prev; easy|]. intros i Hi. lia.
  - destruct (IH _ _ H2 Hj Hs) as [Hp Hpre].
    assert (E : c_job c0 = Running Sent).
    { destruct (c_job c0) as [|[]|]; cbn in Hp; congruence. }
    rewrite E in H1. split; [destruct prev; easy|].
    intros [|i] Hi; [exists c0; auto|].
    apply Hpre. lia.
Qed.

Lemma send_step_cases to s ev :
  fst (send_step to s ev) = s \/ promise_of (Running s) = Pending.
Proof. destruct s, ev; cbn; auto. Qed.

Lemma send_step_transmits to s ev (i : nat) :
  let sent :=
    omap (fun a => match a with
                   | CallSendSignal to data => Some (i, (to, data))
                   | _ => None
                   end) (snd (send_step to s ev)) in
  sent = [] \/
  (s = Encrypting /\ fst (send_step to s ev) = Submitting /\
   exists data, sent = [(i, (to, data))]).
Proof. destruct s, ev; cbn; eauto. Qed.

Lemma loose_insert prev l i c s s' :
  settled prev l -> l !! i = Some c -> c_job c = Running s ->
  s' = s \/ promise_of (Running s) = Pending ->
  loose prev (<[i := with_job (Running s') c]> l).
Proof.
  revert prev i. induction l as [|c0 l IH]; intros prev i; [easy|].
  intros [H1 H2] Hi Hs Hcase. destruct i as [|i].
  - injection Hi as ->. rewrite Hs in H1, H2. cbn.
    split; [destruct prev; easy|].
    destruct Hcase as [-> | Hp];
      [now apply settled_loose|rewrite Hp in H2; now apply pending_loose].
  - cbn. split; [now apply follows_may_follow|]. now apply (IH _ _ H2 Hi Hs).
Qed.

Lemma loose_snoc prev l c :
  loose prev l -> c_job c = Waiting -> loose prev (l ++ [c]).
Proof.
  revert prev. induction l as [|c0 l IH]; intros prev H Hc.
  - cbn. rewrite Hc. easy.
  - destruct H as [H1 H2]. split; [exact H1|now apply IH].
Qed.

Lemma sorted_snoc l i :
  StronglySorted lt l -> (forall k, In k l -> k < i) ->
  StronglySorted lt (l ++ [i]).
Proof.
  induction 1 as [|a l Hs IH Ha]; intros Hlt.
  - repeat constructor.
  - cbn. constructor.
    + apply IH. intros k Hk. apply Hlt. now right.
    + apply Forall_app. split; [exact Ha|].
      constructor; [apply Hlt; now left|constructor].
Qed.

Lemma queue_inv_step q i : queue_inv q -> queue_inv (step true sdk q i).
Proof.
  intros (Hset & Hsort & Hrel). destruct i as [to p|i ev]; cbn [step].
  - (* a new call joins the queue *)
    assert (Hnew : settled Fulfilled
              (settle sdk Fulfilled
                 (calls q ++ [{| c_to := to; c_payload := p; c_job := Waiting |}]))).
    { apply settle_settled, loose_snoc; [now apply settled_loose|reflexivity]. }
    split; [exact Hnew|]. split; [exact Hsort|].
    intros j Hj. destruct (Hrel j Hj) as (c & s & Hc & Hs & Hne).
    exists c, s. split; [|auto].
    apply settle_lookup; [|congruence].
    now apply lookup_app_l_Some.
  - destruct (calls q !! i) as [c|] eqn:Hi; [|easy].
    destruct (c_job c) as [|s|e] eqn:Hs; [easy| |easy].
    cbn [calls transmitted relay_order].
    set (r := send_step (c_to c) s ev).
    set (l1 := <[i := with_job (Running (fst r)) c]> (calls q)).
    assert (Hl1 : l1 !! i = Some (with_job (Running (fst r)) c)).
    { apply list_lookup_insert_eq. now apply lookup_lt_Some in Hi. }
    assert (Hnew : settled Fulfilled (settle sdk Fulfilled l1)).
    { apply settle_settled. apply loose_insert with s; try assumption.
      apply send_step_cases. }
    assert (Hkeep : forall j c' s', calls q !! j = Some c' ->
              c_job c' = Running s' -> s' <> Encrypting ->
              exists c'' s'', settle sdk Fulfilled l1 !! j = Some c'' /\
                c_job c'' = Running s'' /\ s'' <> Encrypting).
    { intros j c' s' Hc' Hs' Hne. destruct (decide (j = i)) as [->|Hji].
      - rewrite Hi in Hc'. injection Hc' as <-. rewrite Hs in Hs'.
        injection Hs' as <-.
        exists (with_job (Running (fst r)) c), (fst r).
        split; [apply settle_lookup; [exact Hl1|discriminate]|].
        split; [reflexivity|].
        unfold r. destruct s, ev; cbn; congruence.
      - exists c', s'. split; [|auto].
        apply settle_lookup; [|congruence].
        unfold l1. now rewrite list_lookup_insert_ne. }
    split; [exact Hnew|].
    unfold relay_order. cbn [transmitted]. rewrite map_app.
    fold (relay_order q).
    destruct (send_step_transmits (c_to c) s ev i) as [Hnone|Hev];
      fold r in Hnone || fold r in Hev.
    + rewrite Hnone. cbn. rewrite app_nil_r. split; [exact Hsort|].
      intros j Hj. destruct (Hrel j Hj) as (c' & s' & Hc' & Hs' & Hne).
      eauto.
    + (* the transaction of call [i] is handed to the relay *)
      destruct Hev as (-> & Hr1 & data & ->). cbn [map fst].
      assert (Hbefore : forall k, In k (relay_order q) -> k < i).
      { intros k Hk. destruct (Hrel k Hk) as (ck & sk & Hck & Hsk & Hne).
        destruct (Nat.lt_trichotomy k i) as [Hlt|[->|Hgt]]; [exact Hlt| |].
        - rewrite Hi in Hck. injection Hck as <-. congruence.
        - destruct (settled_running _ _ _ _ _ Hset Hck Hsk) as [_ Hpre].
          destruct (Hpre i Hgt) as (ci & Hci & Hsi). congruence. }
      split; [now apply sorted_snoc|].
      intros j Hj. apply in_app_or in Hj as [Hj|[<-|[]]].
      * destruct (Hrel j Hj) as (c' & s' & Hc' & Hs' & Hne). eauto.
      * exists (with_job (Running (fst r)) c), (fst r).
        split; [apply settle_lookup; [exact Hl1|discriminate]|].
        split; [reflexivity|]. rewrite Hr1. discriminate.
Qed.

Lemma queue_inv_run inputs : queue_inv (run true sdk inputs).
Proof.
  unfold run.
  assert (H : forall q, queue_inv q ->
                        queue_inv (fold_left (step true sdk) inputs q)).
  { induction inputs as [|i l IH]; intros q Hq; [exact Hq|].
    apply IH, queue_inv_step, Hq. }
  apply H. split; [exact I|]. split; [constructor|]. intros j [].
Qed.

(** C4, as the code has it.  On an SDK whose two send methods have been
    replaced by [addSendQueue], the relay is handed the transactions in the
    order of the calls, and the transaction of a call is handed over only
    when every earlier call has been accepted ([tx.wait()] resolved). *)
Theorem queued_sends_in_request_order :
  forall (inputs : list Input),
    let q := run true sdk inputs in
    StronglySorted lt (relay_order q) /\
    forall i j, i < j -> In j (relay_order q) ->
      job_at q i = Some (Running Sent).
Proof.
  intros inputs q. destruct (queue_inv_run inputs) as (Hset & Hsort & Hrel).
  fold q in Hset, Hsort, Hrel. split; [exact Hsort|].
  intros i j Hij Hj. destruct (Hrel j Hj) as (c & s & Hc & Hs & _).
  destruct (settled_running _ _ _ _ _ Hset Hc Hs) as [_ Hpre].
  destruct (Hpre i Hij) as (ci & Hci & Hsi).
  unfold job_at. now rewrite Hci, <- Hsi.
Qed.

End QueueFacts.

(** C4 as stated fails on the SDK itself, whose [_sendSignal] and
    [_sendCandidate] are independent: of two calls made in a row, the one
    whose encryption completes first is transmitted first.  With the queue
    the same inputs give the order of the calls. *)
Lemma unqueued_sends_out_of_order :
  SendQueue.relay_order
    (SendQueue.run false alice
       [ SendQueue.Request "0xB0b" (SendQueue.Signal toy_offer);
         SendQueue.Request "0xB0b" (SendQueue.CandidateOf "cand-a");
         SendQueue.Completion 1 (EncryptDone (toy_seal "bob" "cand-a"));
         SendQueue.Completion 0 (EncryptDone (toy_seal "bob" "offer")) ]) =
    [1; 0] /\
  SendQueue.relay_order
    (SendQueue.run true alice
       [ SendQueue.Request "0xB0b" (SendQueue.Signal toy_offer);
         SendQueue.Request "0xB0b" (SendQueue.CandidateOf "cand-a");
         SendQueue.Completion 1 (EncryptDone (toy_seal "bob" "cand-a"));
         SendQueue.Completion 0 (EncryptDone (toy_seal "bob" "offer"));
         SendQueue.Completion 0 SendSignalDone;
         SendQueue.Completion 0 TxWaitDone;
         SendQueue.Completion 1 (EncryptDone (toy_seal "bob" "cand-a")) ]) =
    [0; 1].
Proof. vm_compute. split; reflexivity. Qed.
(** * The rest of the SDK *)

(** ** [requestHelp]: counts, finality and the kinds of failure *)

Section OutboundSettlementFacts.
Import Outbound.
Variable codec : Codec.
Variable sdk : Sdk.

Ltac split_goal :=
  match goal with
  | |- context [match ?x with _ => _ end] => destruct x eqn:?
  | |- context [if ?b then _ else _] => destruct b eqn:?
  end.

Ltac fields :=
  cbn [control p2pPromise subscription timer onAnswer actions delivered
       Outbound.pc toAddr candidates fst snd localDescription
       remoteDescription remoteCandidates iceGatheringState
       deliver call with_pc
    with_candidates with_control with_p2pPromise with_subscription
    with_timer with_onAnswer set_local
    set_remote set_gathering add_remote_candidate] in *.

Ltac open_step :=
  unfold begin_send, after_send, _sendSignal, send_step, resume_answer,
    next_candidate, settle, return_p2pPromise, throw, local_sdp,
    gathering_complete;
  cbn [control p2pPromise subscription timer onAnswer actions delivered
       Outbound.pc toAddr candidates fst snd localDescription
       remoteDescription remoteCandidates iceGatheringState
       deliver call with_pc
    with_candidates with_control with_p2pPromise with_subscription
    with_timer with_onAnswer set_local
    set_remote set_gathering add_remote_candidate].

(** X1. Whatever the inputs, an attempt calls [sendSignal] at most once
    and the promise [requestHelp] returned settles at most once. *)
Theorem requestHelp_at_most_once :
  forall (to : Address) (evs : list Event),
    let o := run codec sdk (requestHelp to) evs in
    length (submissions (actions o)) <= 1 /\ length (delivered o) <= 1.
Proof.
  intros to evs o. pose proof (attempt_inv_run codec sdk to evs) as H.
  fold o in H. unfold attempt_inv in H.
  destruct (control o) as [| | |[]| |e]; try contradiction; destruct_and?.
  all: repeat match goal with E : _ = _ |- _ => rewrite E end.
  all: cbn [length]; try (split; lia).
  all: destruct (p2pPromise o); cbn [length]; split; lia.
Qed.

Lemma delivered_final_step o ev :
  attempt_inv o -> delivered o <> [] ->
  delivered (step codec sdk o ev) = delivered o.
Proof.
  intros Hinv Hd. unfold attempt_inv, pristine in Hinv.
  destruct (control o) as [| | |[]| |e] eqn:Hc; try contradiction;
    destruct_and?; try congruence.
  - (* Returned *)
    destruct (p2pPromise o) as [r|] eqn:Hp; [|congruence].
    destruct ev; cbn [step]; rewrite ?Hc; try reflexivity.
    all: open_step; rewrite ?Hc, ?Hp; fields; try reflexivity.
    all: repeat (split_goal; open_step; rewrite ?Hc, ?Hp; fields;
                 try reflexivity).
  - (* Threw *)
    destruct ev; cbn [step]; rewrite ?Hc; try reflexivity.
    all: open_step; rewrite ?Hc; fields; try reflexivity.
    all: repeat match goal with
         | E : ?x = _ |- context [?x] => rewrite E
         end; fields; try reflexivity.
    all: repeat (split_goal; open_step; rewrite ?Hc; fields;
                 try reflexivity).
    all: congruence.
Qed.

Lemma delivered_final_run o evs :
  attempt_inv o -> delivered o <> [] ->
  delivered (run codec sdk o evs) = delivered o.
Proof.
  revert o. induction evs as [|ev evs IH]; intros o Hinv Hd; [reflexivity|].
  cbn [run fold_left]. fold (run codec sdk (step codec sdk o ev) evs).
  pose proof (delivered_final_step o ev Hinv Hd) as E.
  rewrite IH; [exact E| now apply attempt_inv_step | congruence].
Qed.

(** X2. Once the caller of [requestHelp] has been told a settlement, it
    is the only one: no later input (a timer that fires after the channel
    has opened, a channel that opens after the timeout, a late reply)
    changes or repeats it. *)
Theorem requestHelp_settlement_is_final :
  forall (to : Address) (evs1 evs2 : list Event) (r : Settlement),
    resolution (run codec sdk (requestHelp to) evs1) = Some r ->
    delivered (run codec sdk (requestHelp to) (evs1 ++ evs2)) = [r].
Proof.
  intros to evs1 evs2 r Hr. rewrite run_app.
  pose proof (attempt_inv_run codec sdk to evs1) as Hinv.
  pose proof (requestHelp_at_most_once to evs1) as [_ Hlen]. cbv zeta in Hlen.
  unfold resolution in Hr.
  destruct (delivered (run codec sdk (requestHelp to) evs1))
    as [|r1 [|r2 l]] eqn:Hd; [discriminate| |cbn in Hlen; lia].
  cbn in Hr. injection Hr as ->.
  rewrite delivered_final_run; [exact Hd|exact Hinv|congruence].
Qed.

Lemma getPeerPubKey_error addr e :
  _getPeerPubKey sdk addr = inl e -> e = NoPublicKeyForPeer addr.
Proof.
  unfold _getPeerPubKey. destruct (peerPublicKeys sdk !! addr) as [pk|];
    [destruct (String.eqb pk EmptyString)|]; congruence.
Qed.

Lemma settlement_inv_step o ev :
  attempt_inv o -> settlement_inv o -> settlement_inv (step codec sdk o ev).
Proof.
  intros Hinv H.
  destruct ev; cbn [step]; try exact H.
  all: unfold begin_send, after_send, send_step, resume_answer,
         next_candidate, settle, return_p2pPromise, throw, local_sdp,
         gathering_complete; fields.
  all: repeat (split_goal; open_step; try exact H).
  all: destruct H as (H1 & H2 & H3).
  all: unfold settlement_inv; fields.
  all: split; [|split]; [intros xe Hxe|intros xs Hxs|intros xe Hxe Hbad].
  all: simplify_eq; rewrite ?in_app_iff; cbn [In].
  all: try (eapply H1; congruence).
  all: try (eapply H3; [eassumption|reflexivity]).
  all: try (edestruct H2 as [? ?]; [eassumption|]; split; auto; fail).
  all: try (split; [reflexivity|auto]; fail).
  all: try congruence.
  all: try match goal with
       | E : _getPeerPubKey _ _ = inl _ |- _ =>
           apply getPeerPubKey_error in E; discriminate
       end.
  all: repeat match goal with
       | E : context [match ?x with _ => _ end] |- _ =>
           destruct x eqn:?; fields; simplify_eq
       end.
  all: try match goal with
       | E : _getPeerPubKey _ _ = inl _ |- _ =>
           apply getPeerPubKey_error in E; discriminate
       end.
  all: unfold attempt_inv in Hinv;
       match goal with E : control _ = _ |- _ => rewrite E in Hinv end;
       exact Hinv.
Qed.

Lemma settlement_inv_run to evs :
  settlement_inv (run codec sdk (requestHelp to) evs).
Proof.
  enough (G : attempt_inv (run codec sdk (requestHelp to) evs) /\
              settlement_inv (run codec sdk (requestHelp to) evs)) by apply G.
  apply (run_preserves codec sdk (fun o => attempt_inv o /\ settlement_inv o)).
  - intros o ev [Ha Hs]. split; [now apply attempt_inv_step|].
    now apply settlement_inv_step.
  - split; [apply attempt_inv_init|]. repeat split; discriminate.
Qed.

(** X3. The two ways [requestHelp] rejects.  With [HelpResponseTimeout]:
    it had returned, its one transaction was sent, the timer has fired and
    the subscription is removed.  With any other error: it threw before it
    subscribed, no timer is set and no listener is left behind. *)
Theorem requestHelp_rejections :
  forall (to : Address) (evs : list Event) (e : Error),
    let o := run codec sdk (requestHelp to) evs in
    resolution o = Some (Rejected e) ->
    (e = HelpResponseTimeout /\ control o = Returned /\
     timer o = TimerFired /\ subscription o = Unsubscribed /\
     length (submissions (actions o)) = 1) \/
    (e <> HelpResponseTimeout /\ control o = Threw e /\
     timer o = TimerUnset /\ subscription o = NotSubscribed /\
     onAnswer o = None /\ remoteDescription (pc o) = None).
Proof.
  intros to evs e o Hr.
  pose proof (attempt_inv_run codec sdk to evs) as Hinv.
  pose proof (settlement_inv_run to evs) as (H1 & _ & H3).
  fold o in Hinv, H1, H3. unfold attempt_inv, pristine in Hinv.
  unfold resolution in Hr.
  destruct (control o) as [| | |[]| |e'] eqn:Hc; try contradiction;
    destruct_and?.
  all: repeat match goal with
       | E : delivered _ = _ |- _ => rewrite E in Hr
       end; try discriminate.
  - left. destruct (p2pPromise o) as [r|] eqn:Hp; [|discriminate].
    cbn in Hr. injection Hr as ->.
    assert (e = HelpResponseTimeout) by (apply H1; reflexivity). subst e.
    assert (Ht : timer o = TimerFired) by eauto.
    repeat split; try assumption; try reflexivity.
    match goal with H : timer o = TimerFired -> _ |- _ => apply H, Ht end.
  - right. cbn in Hr. injection Hr as ->.
    repeat split; try assumption; try reflexivity. now apply H3.
Qed.





End OutboundSettlementFacts.

(** ** [requestHelp]: the offer sent *)

Section OutboundOfferFacts.
Import Outbound.
Variable codec : Codec.
Variable sdk : Sdk.
Variable to : Address.

Ltac split_goal :=
  match goal with
  | |- context [match ?x with _ => _ end] => destruct x eqn:?
  | |- context [if ?b then _ else _] => destruct b eqn:?
  end.

Ltac fields :=
  cbn [control p2pPromise subscription timer onAnswer actions delivered
       Outbound.pc toAddr candidates fst snd localDescription
       remoteDescription remoteCandidates iceGatheringState
       deliver call with_pc
    with_candidates with_control with_p2pPromise with_subscription
    with_timer with_onAnswer set_local
    set_remote set_gathering add_remote_candidate] in *.

Ltac open_step :=
  unfold begin_send, after_send, _sendSignal, send_step, resume_answer,
    next_candidate, settle, return_p2pPromise, throw, local_sdp,
    gathering_complete;
  cbn [control p2pPromise subscription timer onAnswer actions delivered
       Outbound.pc toAddr candidates fst snd localDescription
       remoteDescription remoteCandidates iceGatheringState
       deliver call with_pc
    with_candidates with_control with_p2pPromise with_subscription
    with_timer with_onAnswer set_local
    set_remote set_gathering add_remote_candidate].




Lemma run_snoc_ob o evs ev :
  run codec sdk o (evs ++ [ev]) = step codec sdk (run codec sdk o evs) ev.
Proof. unfold run. now rewrite fold_left_app. Qed.










(** ** [requestHelp]: the reply applied *)

Lemma reply_calls_app l1 l2 :
  reply_calls (l1 ++ l2) = reply_calls l1 ++ reply_calls l2.
Proof. apply List.filter_app. Qed.

Lemma reply_of_snoc evs ev msg :
  reply_of codec sdk to evs msg -> reply_of codec sdk to (evs ++ [ev]) msg.
Proof.
  intros (enc & Hin & H). exists enc. split; [|exact H].
  apply in_or_app. now left.
Qed.

Lemma reply_inv_frame evs ev o o' :
  reply_inv codec sdk to evs o ->
  toAddr o' = toAddr o -> onAnswer o' = onAnswer o ->
  remoteDescription (pc o') = remoteDescription (pc o) ->
  remoteCandidates (pc o') = remoteCandidates (pc o) ->
  reply_calls (actions o') = reply_calls (actions o) ->
  reply_inv codec sdk to (evs ++ [ev]) o'.
Proof.
  intros [Hto H] Eto Ea Er Ec El. unfold reply_inv, nothing_applied in *.
  rewrite Eto, Ea, Er, Ec, El. split; [exact Hto|].
  destruct (onAnswer o) as [[enc|msg|c rest| |e]|].
  - destruct H as (Hin & H). split; [apply in_or_app; now left|exact H].
  - destruct H as (Hr & H). split; [now apply reply_of_snoc|exact H].
  - destruct H as (msg & Hr & H). exists msg.
    split; [now apply reply_of_snoc|exact H].
  - destruct H as [H|(msg & Hr & H)]; [now left|right].
    exists msg. split; [now apply reply_of_snoc|exact H].
  - destruct H as [[Hn [H|(msg & Hr & H)]]|(msg & c & rest & Hr & H)].
    + left. split; [exact Hn|now left].
    + left. split; [exact Hn|right]. exists msg.
      split; [now apply reply_of_snoc|exact H].
    + right. exists msg, c, rest. split; [now apply reply_of_snoc|exact H].
  - exact H.
Qed.

Ltac reply_framed H :=
  eapply reply_inv_frame;
  [exact H|reflexivity|reflexivity|reflexivity|reflexivity
  |fields; rewrite ?reply_calls_app, ?app_nil_r; reflexivity].

Lemma applied_calls_snoc msg given c :
  applied_calls msg given ++ [CallAddIceCandidate c] =
  applied_calls msg (given ++ [c]).
Proof. unfold applied_calls. now rewrite map_app. Qed.

Lemma reply_inv_step evs ev o :
  attempt_inv o ->
  reply_inv codec sdk to evs o ->
  reply_inv codec sdk to (evs ++ [ev]) (step codec sdk o ev).
Proof.
  intros Hinv H.
  destruct ev as [offer0|e0|answer0|e0| |e0| |e0| |e0|[c0|]|gs| |data|e0|
                  | |e0| |e0|sender recipient enc|];
    cbn [step] in *.
  all: try (reply_framed H; fail).
  all: try (unfold begin_send, after_send, _sendSignal, send_step, settle,
              return_p2pPromise, throw, local_sdp, gathering_complete;
            fields;
            repeat (split_goal; fields; try (reply_framed H; fail)); fail).
  - (* setRemoteDescription has resolved *)
    destruct (onAnswer o) as [[enc|msg|c rest| |e]|] eqn:Ha;
      try (reply_framed H; fail).
    unfold reply_inv in H; rewrite Ha in H.
    destruct H as (Hto & Hr & [Hn1 Hn2] & Hcalls).
    apply (reply_of_snoc evs SetRemoteDescriptionDone) in Hr.
    unfold reply_inv, next_candidate.
    destruct (e_candidates msg) as [|c rest] eqn:Hcs; fields;
      (split; [exact Hto|]); rewrite ?reply_calls_app, ?Hcalls.
    + right. exists msg. rewrite Hcs, Hn2. auto.
    + exists msg. rewrite Hn2, Hcs. repeat split; assumption.
  - (* setRemoteDescription has failed *)
    destruct (onAnswer o) as [[enc|msg|c rest| |e]|] eqn:Ha;
      try (reply_framed H; fail).
    unfold reply_inv in H; rewrite Ha in H.
    destruct H as (Hto & Hr & Hn & Hcalls).
    apply (reply_of_snoc evs (SetRemoteDescriptionFailed e0)) in Hr.
    unfold reply_inv, nothing_applied in *; fields.
    split; [exact Hto|]. left. split; [exact Hn|]. right. now exists msg.
  - (* addIceCandidate has resolved *)
    destruct (onAnswer o) as [[enc|msg|c rest| |e]|] eqn:Ha;
      try (reply_framed H; fail).
    unfold reply_inv in H; rewrite Ha in H.
    destruct H as (Hto & msg & Hr & Hrd & Hcs & Hcalls).
    apply (reply_of_snoc evs AddIceCandidateDone) in Hr.
    unfold reply_inv, next_candidate.
    destruct rest as [|c' rest']; fields;
      (split; [exact Hto|]); rewrite ?reply_calls_app, ?Hcalls.
    + right. exists msg. rewrite Hcs. auto.
    + exists msg. rewrite Hcs, <- app_assoc, <- !applied_calls_snoc.
      repeat split; assumption.
  - (* addIceCandidate has failed *)
    destruct (onAnswer o) as [[enc|msg|c rest| |e]|] eqn:Ha;
      try (reply_framed H; fail).
    unfold reply_inv in H; rewrite Ha in H.
    destruct H as (Hto & msg & Hr & H).
    apply (reply_of_snoc evs (AddIceCandidateFailed e0)) in Hr.
    unfold reply_inv; fields. split; [exact Hto|]. right.
    exists msg, c, rest. auto.
  - (* the payload has been read *)
    destruct (onAnswer o) as [[enc|msg|c rest| |e]|] eqn:Ha;
      try (reply_framed H; fail).
    unfold reply_inv in H; rewrite Ha in H.
    destruct H as (Hto & Hin & Hn & Hcalls).
    assert (Hin' : In (SignalSent to (wallet_address sdk) (Some enc))
                     (evs ++ [DecryptSettled]))
      by (apply in_or_app; now left).
    unfold reply_inv, resume_answer, nothing_applied in *.
    destruct (read_payload codec sdk enc) as [e|msg] eqn:Hread; fields.
    + split; [exact Hto|]. left. split; [exact Hn|now left].
    + destruct (String.eqb_spec (e_type msg) "answer") as [Ht|Ht]; fields;
        (split; [exact Hto|]).
      * rewrite reply_calls_app, Hcalls.
        split; [now exists enc|]. split; [exact Hn|reflexivity].
      * left. now split.
  - (* a relay event *)
    destruct (subscription o) eqn:Hs; try (reply_framed H; fail).
    destruct (matches sdk o sender recipient) eqn:Hm;
      try (reply_framed H; fail).
    assert (Ha : onAnswer o = None).
    { unfold attempt_inv, pristine in Hinv.
      destruct (control o) as [| | |[]| |]; destruct_and?; try congruence;
        try contradiction; auto. }
    unfold reply_inv in H. rewrite Ha in H. destruct H as (Hto & Hn & Hcalls).
    unfold matches in Hm. apply andb_prop in Hm as [Hm1 Hm2].
    apply String.eqb_eq in Hm1, Hm2. subst sender recipient.
    unfold reply_inv, nothing_applied in *.
    destruct enc as [enc|]; fields; (split; [exact Hto|]).
    + split; [|now split]. apply in_or_app. right. left. now rewrite Hto.
    + left. now split.
Qed.

Lemma reply_inv_run evs :
  reply_inv codec sdk to evs (run codec sdk (requestHelp to) evs).
Proof.
  induction evs as [|ev evs IH] using rev_ind.
  - repeat split.
  - rewrite run_snoc_ob. apply reply_inv_step; [|exact IH].
    apply attempt_inv_run.
Qed.

(** X7. When the engine of an attempt has a remote description, it is
    that of a valid reply delivered to the attempt; [onAnswer] has called
    [setRemoteDescription] once, with it, and then [addIceCandidate] with
    the reply's candidates in their order, one at a time; when [onAnswer]
    has returned the engine has all of them. *)
Theorem requestHelp_applies_the_reply :
  forall (evs : list Event) (d : Description),
    let o := run codec sdk (requestHelp to) evs in
    remoteDescription (pc o) = Some d ->
    exists msg given,
      reply_of codec sdk to evs msg /\
      d = answer_description msg /\
      reply_calls (actions o) = applied_calls msg given /\
      remoteCandidates (pc o) `prefix_of` given /\
      given `prefix_of` e_candidates msg /\
      (onAnswer o = Some AnswerReturned ->
       remoteCandidates (pc o) = e_candidates msg).
Proof.
  intros evs d o Hd. pose proof (reply_inv_run evs) as [_ H]. fold o in H.
  unfold nothing_applied in H.
  destruct (onAnswer o) as [[enc|msg|c rest| |e]|];
    destruct_and?; try congruence.
  - destruct H as (msg & Hr & Hrd & Hcs & Hcalls).
    exists msg, (remoteCandidates (pc o) ++ [c]).
    repeat split; try assumption; try congruence; try discriminate.
    + now exists [c].
    + exists rest. now rewrite <- app_assoc.
  - destruct H as [[[? ?] _]|(msg & Hr & Hrd & Hcs & Hcalls)]; [congruence|].
    exists msg, (e_candidates msg).
    repeat split; try assumption; try congruence.
    all: rewrite ?Hcs; reflexivity.
  - destruct H as [[[? ?] _]|(msg & c & rest & Hr & Hrd & Hcs & Hcalls)];
      [congruence|].
    exists msg, (remoteCandidates (pc o) ++ [c]).
    repeat split; try assumption; try congruence; try discriminate.
    + now exists [c].
    + exists rest. now rewrite <- app_assoc.
Qed.

End OutboundOfferFacts.

Lemma requestHelp_settlement_is_final_witness :
  Outbound.delivered
    (Outbound.run toy alice (Outbound.requestHelp "0xB0b")
       ((offer_sent ++ bobs_answer :: answer_applied) ++ [TimerExpired])) =
    [Outbound.Resolved (DataStream.new "0xB0b")].
Proof.
  apply (requestHelp_settlement_is_final toy alice "0xB0b"
           (offer_sent ++ bobs_answer :: answer_applied) [TimerExpired]).
  vm_compute. reflexivity.
Defined.

Lemma requestHelp_rejections_witness :
  Outbound.timer
    (Outbound.run toy alice (Outbound.requestHelp "0xB0b")
       (offer_sent ++ [TimerExpired])) = Outbound.TimerFired.
Proof.
  destruct (requestHelp_rejections toy alice "0xB0b"
              (offer_sent ++ [TimerExpired]) HelpResponseTimeout)
    as [(_ & _ & H & _)|(H & _)].
  - vm_compute. reflexivity.
  - exact H.
  - destruct H. reflexivity.
Defined.


Lemma requestHelp_applies_the_reply_witness :
  exists msg given,
    reply_of toy alice "0xB0b" (offer_sent ++ bobs_answer :: answer_applied)
      msg /\
    answer_description toy_answer = answer_description msg /\
    reply_calls
      (Outbound.actions
         (Outbound.run toy alice (Outbound.requestHelp "0xB0b")
            (offer_sent ++ bobs_answer :: answer_applied))) =
      applied_calls msg given /\
    remoteCandidates
      (Outbound.pc
         (Outbound.run toy alice (Outbound.requestHelp "0xB0b")
            (offer_sent ++ bobs_answer :: answer_applied)))
      `prefix_of` given /\
    given `prefix_of` e_candidates msg /\
    (Outbound.onAnswer
       (Outbound.run toy alice (Outbound.requestHelp "0xB0b")
          (offer_sent ++ bobs_answer :: answer_applied)) =
       Some Outbound.AnswerReturned ->
     remoteCandidates
       (Outbound.pc
          (Outbound.run toy alice (Outbound.requestHelp "0xB0b")
             (offer_sent ++ bobs_answer :: answer_applied))) =
       e_candidates msg).
Proof.
  apply (requestHelp_applies_the_reply toy alice "0xB0b"
           (offer_sent ++ bobs_answer :: answer_applied)
           (answer_description toy_answer)).
  vm_compute. reflexivity.
Defined.

(** ** [_sendSignal] and [_sendCandidate] *)

Section SendFacts.
Variable sdk : Sdk.
Variable to : Address.
Variable enc : PublicKey -> Action.

Lemma send_run_snoc start evs ev :
  send_run to start (evs ++ [ev]) =
  (fst (send_step to (fst (send_run to start evs)) ev),
   snd (send_run to start evs) ++
   snd (send_step to (fst (send_run to start evs)) ev)).
Proof. unfold send_run. now rewrite fold_left_app. Qed.

Lemma send_shape_step evs ev r :
  send_shape sdk to enc evs r ->
  send_shape sdk to enc (evs ++ [ev])
    (fst (send_step to (fst r) ev), snd r ++ snd (send_step to (fst r) ev)).
Proof.
  assert (Hin : forall x, In x evs -> In x (evs ++ [ev]))
    by (intros; apply in_or_app; now left).
  assert (Hlast : In ev (evs ++ [ev]))
    by (apply in_or_app; right; now left).
  destruct r as [s l]. unfold send_shape. cbn [fst snd].
  destruct s as [| | | |e].
  - intros (key & Hk & ->).
    destruct ev; cbn [send_step fst snd app]; eauto 10.
  - intros (key & data & Hk & Hd & ->).
    destruct ev; cbn [send_step fst snd app]; eauto 12.
  - intros (key & data & Hk & Hd & Hs & ->).
    destruct ev; cbn [send_step fst snd app]; eauto 12.
  - intros (key & data & Hk & Hd & Hs & Hw & ->).
    destruct ev; cbn [send_step fst snd app]; eauto 12.
  - intros H. replace (send_step to (SendThrew e) ev) with (SendThrew e, @nil Action)
      by (destruct ev; reflexivity).
    cbn [fst snd]. rewrite app_nil_r.
    destruct e; try contradiction.
    + exact H.
    + destruct H as (key & Hk & He & ->). eauto.
    + destruct H as (key & data & Hk & Hd & [[He ->]|[He ->]]); eauto 12.
Qed.

Lemma send_shape_run start evs :
  send_shape sdk to enc [] start ->
  send_shape sdk to enc evs (send_run to start evs).
Proof.
  intros H. induction evs as [|ev evs IH] using rev_ind; [exact H|].
  rewrite send_run_snoc. now apply send_shape_step.
Qed.

End SendFacts.

Lemma getPeerPubKey_cases sdk addr :
  (exists key, _getPeerPubKey sdk addr = inr key /\
               peerPublicKeys sdk !! addr = Some key /\ key <> EmptyString) \/
  (_getPeerPubKey sdk addr = inl (NoPublicKeyForPeer addr) /\
   (peerPublicKeys sdk !! addr = None \/
    peerPublicKeys sdk !! addr = Some EmptyString)).
Proof.
  unfold _getPeerPubKey. destruct (peerPublicKeys sdk !! addr) as [pk|];
    [|right; auto].
  destruct (String.eqb_spec pk EmptyString) as [->|Hne]; [right; auto|].
  left. exists pk. auto.
Qed.

(** X8. A call of [_sendSignal] or [_sendCandidate], whatever
    completions it is resumed with: an unknown or empty key throws before
    the cipher is called; otherwise the calls are, in order, the encryption
    under the directory's key, [sendSignal(to, data)] with the bytes the
    cipher returned, and [tx.wait()]; a cipher failure stops before
    [sendSignal], a rejected [sendSignal] before [tx.wait()]; the call
    returns only after [tx.wait()] has resolved. *)
Theorem send_protocol :
  forall (sdk : Sdk) (to : Address) (evs : list Event),
    (forall descObj,
       send_shape sdk to (fun key => CallEncrypt key descObj) evs
         (send_run to (_sendSignal sdk to descObj) evs)) /\
    (forall candidateObj,
       send_shape sdk to (fun key => CallEncryptCandidate key candidateObj) evs
         (send_run to (_sendCandidate sdk to candidateObj) evs)).
Proof.
  intros sdk to evs. split; intros x; apply send_shape_run.
  all: unfold _sendSignal, _sendCandidate, send_shape.
  all: destruct (getPeerPubKey_cases sdk to) as [(key & -> & Hk & _)|[-> H]];
       cbn [fst snd]; eauto.
Qed.

(** ** The send queue: one call at a time, and a failure stops it *)

Section QueueMoreFacts.
Import SendQueue.
Variable sdk : Sdk.

(** X9. With [addSendQueue] installed, a call is started (its key
    looked up, the cipher called) only when every call made before it has
    returned: at most one call is under way at any time. *)
Theorem queued_calls_run_one_at_a_time :
  forall (inputs : list Input) (i j : nat) (s : SendState),
    let q := run true sdk inputs in
    i < j -> job_at q j = Some (Running s) ->
    job_at q i = Some (Running Sent).
Proof.
  intros inputs i j s q Hij Hj.
  destruct (queue_inv_run sdk inputs) as (Hset & _). fold q in Hset.
  unfold job_at in *.
  destruct (calls q !! j) as [c|] eqn:Hc; [|discriminate].
  cbn in Hj. injection Hj as Hs.
  destruct (settled_running _ _ _ _ _ Hset Hc Hs) as [_ Hpre].
  destruct (Hpre i Hij) as (ci & Hci & Hsi). now rewrite Hci, <- Hsi.
Qed.

Lemma settled_rejected e l j c :
  settled (Rejected e) l -> l !! j = Some c -> c_job c = Skipped e.
Proof.
  revert j. induction l as [|c0 l IH]; intros j; [easy|].
  intros [H1 H2] Hj.
  assert (E : c_job c0 = Skipped e).
  { unfold follows in H1. destruct (c_job c0); try contradiction.
    now subst. }
  destruct j as [|j]; [now injection Hj as <-|].
  rewrite E in H2. cbn [promise_of] in H2. exact (IH _ H2 Hj).
Qed.

Lemma settled_after_failure prev l i j ci cj e :
  settled prev l -> i < j ->
  l !! i = Some ci -> promise_of (c_job ci) = Rejected e ->
  l !! j = Some cj -> c_job cj = Skipped e.
Proof.
  revert prev i j. induction l as [|c0 l IH]; intros prev i j; [easy|].
  intros [H1 H2] Hij Hi He Hj.
  destruct j as [|j]; [lia|]. destruct i as [|i].
  - injection Hi as ->. rewrite He in H2.
    exact (settled_rejected _ _ _ _ H2 Hj).
  - apply (IH _ i j H2); [lia|exact Hi|exact He|exact Hj].
Qed.

(** X10. With [addSendQueue] installed, a call that fails stops the
    queue for good: every call made after it is rejected with the same
    error and never started. *)
Theorem queue_stops_at_first_failure :
  forall (inputs : list Input) (i j : nat) (ji : Job) (e : Error),
    let q := run true sdk inputs in
    i < j -> j < length (calls q) ->
    job_at q i = Some ji -> promise_of ji = Rejected e ->
    job_at q j = Some (Skipped e).
Proof.
  intros inputs i j ji e q Hij Hj Hi He.
  destruct (queue_inv_run sdk inputs) as (Hset & _). fold q in Hset.
  unfold job_at in *.
  destruct (calls q !! i) as [ci|] eqn:Hci; [|discriminate].
  cbn in Hi. injection Hi as <-.
  destruct (lookup_lt_is_Some_2 (calls q) j Hj) as [cj Hcj].
  rewrite Hcj. cbn. f_equal.
  exact (settled_after_failure _ _ _ _ _ _ _ Hset Hij Hci He Hcj).
Qed.

End QueueMoreFacts.

Lemma queued_calls_run_one_at_a_time_witness :
  SendQueue.job_at
    (SendQueue.run true alice
       [ SendQueue.Request "0xB0b" (SendQueue.Signal toy_offer);
         SendQueue.Completion 0 (EncryptDone (toy_seal "bob" "offer"));
         SendQueue.Completion 0 SendSignalDone;
         SendQueue.Request "0xB0b" (SendQueue.CandidateOf "cand-a");
         SendQueue.Completion 0 TxWaitDone ]) 0 =
    Some (SendQueue.Running Sent).
Proof.
  apply (queued_calls_run_one_at_a_time alice _ 0 1 Encrypting).
  - lia.
  - vm_compute. reflexivity.
Defined.

Lemma queue_stops_at_first_failure_witness :
  SendQueue.job_at
    (SendQueue.run true alice
       [ SendQueue.Request "0xB0b" (SendQueue.Signal toy_offer);
         SendQueue.Request "0xB0b" (SendQueue.CandidateOf "cand-a");
         SendQueue.Completion 0 (EncryptFailed "bad key") ]) 1 =
    Some (SendQueue.Skipped (CipherError "bad key")).
Proof.
  apply (queue_stops_at_first_failure alice _ 0 1
           (SendQueue.Running (SendThrew (CipherError "bad key")))).
  - lia.
  - vm_compute. lia.
  - vm_compute. reflexivity.
  - reflexivity.
Defined.

(** ** The persistent listener *)

Section ListenerFacts.
Variable codec : Codec.
Variable sdk0 : Sdk.

Lemma read_payload_same s enc :
  same_instance sdk0 s -> read_payload codec s enc = read_payload codec sdk0 enc.
Proof. intros (_ & Hi & _). unfold read_payload. now rewrite Hi. Qed.

Lemma registered_snoc inputs i cb :
  registered sdk0 inputs cb -> registered sdk0 (inputs ++ [i]) cb.
Proof. intros [H|H]; [now left|right]. apply in_or_app. now left. Qed.

Lemma offered_snoc inputs i sender msg :
  offered codec sdk0 inputs sender msg ->
  offered codec sdk0 (inputs ++ [i]) sender msg.
Proof.
  intros (enc & Hin & H). exists enc. split; [|exact H].
  apply in_or_app. now left.
Qed.

Lemma pending_snoc inputs i l :
  pending sdk0 inputs l -> pending sdk0 (inputs ++ [i]) l.
Proof. intros H sender enc Hin. apply in_or_app. left. now apply H. Qed.

Lemma pending_delete inputs k l :
  pending sdk0 inputs l -> pending sdk0 inputs (delete k l).
Proof.
  intros H sender enc Hin. apply H.
  apply list_elem_of_In. apply list_elem_of_In in Hin.
  eapply elem_of_sublist; [exact Hin|apply sublist_delete].
Qed.

Lemma pending_lookup inputs l k sender enc :
  pending sdk0 inputs l -> l !! k = Some (sender, enc) ->
  In (Facade.Delivered sender (wallet_address sdk0) (Some enc)) inputs.
Proof.
  intros H Hk. apply H. apply list_elem_of_In.
  eapply list_elem_of_lookup_2, Hk.
Qed.

Lemma listener_inv_step inputs i f :
  listener_inv codec sdk0 inputs f ->
  listener_inv codec sdk0 (inputs ++ [i]) (Facade.step codec f i).
Proof.
  intros (Hsame & Hcb & Hpend & Hreq).
  assert (Hlast : In i (inputs ++ [i])) by (apply in_or_app; right; now left).
  assert (Hreq' : forall cb req,
            In (cb, req) (Facade.requests f) ->
            registered sdk0 (inputs ++ [i]) cb /\
            offered codec sdk0 (inputs ++ [i]) (Inbound.sender req)
              (Inbound.offer req)).
  { intros cb req Hin. destruct (Hreq cb req Hin).
    split; [now apply registered_snoc|now apply offered_snoc]. }
  destruct i as [cb|cb|sender recipient [enc|]|k]; cbn [Facade.step].
  - split; [exact Hsame|]. split; [|split; [now apply pending_snoc|exact Hreq']].
    intros cb' [= <-]. now right.
  - split; [exact Hsame|].
    split; [|split; [now apply pending_snoc|exact Hreq']].
    intros cb' Hcb'. apply registered_snoc, Hcb, Hcb'.
  - destruct (String.eqb_spec recipient (wallet_address (Facade.sdk f)))
      as [->|_].
    + split; [exact Hsame|].
      split; [intros cb' Hcb'; apply registered_snoc, Hcb, Hcb'|].
      split; [|exact Hreq'].
      intros s e Hin. cbn [Facade.suspended] in Hin.
      apply in_app_or in Hin as [Hin|[[= <- <-]|[]]].
      * apply in_or_app. left. now apply Hpend.
      * destruct Hsame as [<- _]. exact Hlast.
    + split; [exact Hsame|].
      split; [intros cb' Hcb'; apply registered_snoc, Hcb, Hcb'|].
      split; [now apply pending_snoc|exact Hreq'].
  - destruct (String.eqb recipient (wallet_address (Facade.sdk f)));
      (split; [exact Hsame|];
       split; [intros cb' Hcb'; apply registered_snoc, Hcb, Hcb'|];
       split; [now apply pending_snoc|exact Hreq']).
  - unfold Facade.resume.
    destruct (Facade.suspended f !! k) as [[sender enc]|] eqn:Hk.
    2:{ split; [exact Hsame|].
        split; [intros cb' Hcb'; apply registered_snoc, Hcb, Hcb'|].
        split; [now apply pending_snoc|exact Hreq']. }
    cbn [Facade.sdk Facade.suspended Facade.requests].
    split; [exact Hsame|].
    split; [intros cb' Hcb'; apply registered_snoc, Hcb, Hcb'|].
    split; [apply pending_snoc, pending_delete, Hpend|].
    intros cb req Hin. apply in_app_or in Hin as [Hin|Hin];
      [now apply Hreq'|].
    rewrite (read_payload_same _ _ Hsame) in Hin.
    destruct (read_payload codec sdk0 enc) as [e|msg] eqn:Hread; [destruct Hin|].
    destruct (String.eqb_spec (e_type msg) "offer") as [Ht|_]; [|destruct Hin].
    destruct (_helpCb (Facade.sdk f)) as [cb0|] eqn:Hcb0; [|destruct Hin].
    destruct Hin as [[= <- <-]|[]]. cbn [Inbound.sender Inbound.offer].
    split; [apply registered_snoc, Hcb; reflexivity|].
    apply offered_snoc. exists enc.
    split; [exact (pending_lookup _ _ _ _ _ Hpend Hk)|now split].
Qed.

Lemma facade_run_snoc f inputs i :
  Facade.run codec f (inputs ++ [i]) =
  Facade.step codec (Facade.run codec f inputs) i.
Proof. unfold Facade.run. now rewrite fold_left_app. Qed.

Lemma listener_inv_run inputs :
  listener_inv codec sdk0 inputs (Facade.run codec (Facade.start sdk0) inputs).
Proof.
  induction inputs as [|i inputs IH] using rev_ind.
  - split; [repeat split|]. split; [intros cb H; now left|].
    split; [intros s e []|intros cb req []].
  - rewrite facade_run_snoc. now apply listener_inv_step.
Qed.

(** X11. Every [RequestForHelp] handed to a help callback was made for
    an event addressed to this wallet whose payload reads as an envelope of
    type [offer]; it carries the sender of that event and that envelope,
    and the callback is one that was registered. *)
Theorem help_requests_come_from_offers :
  forall (inputs : list Facade.Input) (cb : Callback)
         (req : Inbound.RequestForHelp),
    In (cb, req)
       (Facade.requests (Facade.run codec (Facade.start sdk0) inputs)) ->
    (_helpCb sdk0 = Some cb \/ In (Facade.OnHelpRequest cb) inputs) /\
    exists enc,
      In (Facade.Delivered (Inbound.sender req) (wallet_address sdk0)
            (Some enc)) inputs /\
      read_payload codec sdk0 enc = inr (Inbound.offer req) /\
      e_type (Inbound.offer req) = "offer".
Proof.
  intros inputs cb req Hin.
  destruct (listener_inv_run inputs) as (_ & _ & _ & H).
  exact (H cb req Hin).
Qed.

End ListenerFacts.

Section ListenerMoreFacts.
Variable codec : Codec.

Lemma helpCb_after_registrations (f : Facade.t)
    (between : list Callback) (cb : Callback) :
  let f' := Facade.run codec f
              (map Facade.OnHelpRequest (between ++ [cb])) in
  _helpCb (Facade.sdk f') = Some cb /\
  identity (Facade.sdk f') = identity (Facade.sdk f) /\
  Facade.suspended f' = Facade.suspended f /\
  Facade.requests f' = Facade.requests f.
Proof.
  revert f. induction between as [|cb0 l IH]; intros f; [now cbn|].
  cbn [app map Facade.run fold_left].
  destruct (IH (Facade.step codec f (Facade.OnHelpRequest cb0)))
    as (H1 & H2 & H3 & H4).
  unfold Facade.run in *. now rewrite H1, H2, H3, H4.
Qed.

(** X12. An offer is handed to the help callback registered when its
    decryption completes: of the callbacks registered after the event
    arrived, the last one gets the request, and only that one. *)
Theorem offer_goes_to_latest_callback :
  forall (f : Facade.t) (sender : Address) (enc : Bytes) (msg : Envelope)
         (between : list Callback) (cb : Callback),
    read_payload codec (Facade.sdk f) enc = inr msg ->
    e_type msg = "offer" ->
    Facade.requests
      (Facade.run codec f
         (Facade.Delivered sender (wallet_address (Facade.sdk f)) (Some enc)
          :: map Facade.OnHelpRequest (between ++ [cb])
          ++ [Facade.Resumed (length (Facade.suspended f))])) =
    Facade.requests f ++
    [(cb, {| Inbound.sender := sender; Inbound.offer := msg |})].
Proof.
  intros f sender enc msg between cb Hread Htype.
  cbn [Facade.run fold_left Facade.step]. rewrite String.eqb_refl.
  fold (Facade.run codec).
  set (f1 := {| Facade.sdk := Facade.sdk f;
                Facade.suspended := Facade.suspended f ++ [(sender, enc)];
                Facade.requests := Facade.requests f |}).
  unfold Facade.run. rewrite fold_left_app. cbn [fold_left Facade.step].
  destruct (helpCb_after_registrations f1 between cb)
    as (Hcb & Hid & Hsusp & Hreq).
  unfold Facade.run in *. unfold Facade.resume.
  rewrite Hsusp, Hreq, Hcb. cbn [f1 Facade.suspended Facade.requests].
  rewrite lookup_app_r by lia. rewrite Nat.sub_diag. cbn [lookup list_lookup].
  assert (E : forall s, identity s = identity (Facade.sdk f) ->
                        read_payload codec s enc = inr msg).
  { intros s Hs. unfold read_payload in *. now rewrite Hs. }
  rewrite (E _ Hid), Htype. reflexivity.
Qed.

End ListenerMoreFacts.

Lemma offer_goes_to_latest_callback_witness :
  Facade.requests
    (Facade.run toy bob_facade
       (alices_offer :: map Facade.OnHelpRequest ([1; 2] ++ [3])
        ++ [Facade.Resumed 0])) =
  [(3, alices_request)].
Proof.
  apply (offer_goes_to_latest_callback toy bob_facade "0xA11ce"
           (toy_seal "bob" "offer") toy_offer [1; 2] 3);
    vm_compute; reflexivity.
Defined.

(** ** The listener of the embedded SDK *)

Section EmbeddedListenerFacts.
Variable codec : Codec.
Variable sdk0 : Sdk.

Lemma new_request_ok s sender msg req :
  same_instance sdk0 s ->
  EmbeddedFacade.new_request s sender msg = inr req ->
  EmbeddedFacade.sender req = sender /\ EmbeddedFacade.offer req = msg /\
  peerPublicKeys sdk0 !! sender = Some (EmbeddedFacade.publicKey req) /\
  EmbeddedFacade.publicKey req <> EmptyString.
Proof.
  intros (_ & _ & Hdir) H. unfold EmbeddedFacade.new_request in H.
  destruct (getPeerPubKey_cases s sender) as [(key & E & Hk & Hne)|[E _]];
    rewrite E in H; [|discriminate].
  injection H as <-. cbn. rewrite <- Hdir. auto.
Qed.

Lemma embedded_listener_inv_step inputs i f :
  embedded_listener_inv codec sdk0 inputs f ->
  embedded_listener_inv codec sdk0 (inputs ++ [i])
    (EmbeddedFacade.step codec f i).
Proof.
  intros (Hsame & Hcb & Hpend & Hreq).
  assert (Hlast : In i (inputs ++ [i])) by (apply in_or_app; right; now left).
  assert (Hreq' : forall cb req,
            In (cb, req) (EmbeddedFacade.requests f) ->
            registered sdk0 (inputs ++ [i]) cb /\
            offered codec sdk0 (inputs ++ [i]) (EmbeddedFacade.sender req)
              (EmbeddedFacade.offer req) /\
            peerPublicKeys sdk0 !! EmbeddedFacade.sender req =
              Some (EmbeddedFacade.publicKey req) /\
            EmbeddedFacade.publicKey req <> EmptyString).
  { intros cb req Hin. destruct (Hreq cb req Hin) as (H1 & H2 & H3).
    split; [now apply registered_snoc|]. split; [now apply offered_snoc|].
    exact H3. }
  destruct i as [cb|cb|sender recipient [enc|]|k]; cbn [EmbeddedFacade.step].
  - split; [exact Hsame|]. split; [|split; [now apply pending_snoc|exact Hreq']].
    intros cb' [= <-]. now right.
  - split; [exact Hsame|].
    split; [|split; [now apply pending_snoc|exact Hreq']].
    intros cb' Hcb'. apply registered_snoc, Hcb, Hcb'.
  - destruct (String.eqb_spec recipient
                (wallet_address (EmbeddedFacade.sdk f))) as [->|_].
    + split; [exact Hsame|].
      split; [intros cb' Hcb'; apply registered_snoc, Hcb, Hcb'|].
      split; [|exact Hreq'].
      intros s e Hin. cbn [EmbeddedFacade.suspended] in Hin.
      apply in_app_or in Hin as [Hin|[[= <- <-]|[]]].
      * apply in_or_app. left. now apply Hpend.
      * destruct Hsame as [<- _]. exact Hlast.
    + split; [exact Hsame|].
      split; [intros cb' Hcb'; apply registered_snoc, Hcb, Hcb'|].
      split; [now apply pending_snoc|exact Hreq'].
  - destruct (String.eqb recipient (wallet_address (EmbeddedFacade.sdk f)));
      (split; [exact Hsame|];
       split; [intros cb' Hcb'; apply registered_snoc, Hcb, Hcb'|];
       split; [now apply pending_snoc|exact Hreq']).
  - unfold EmbeddedFacade.resume.
    destruct (EmbeddedFacade.suspended f !! k) as [[sender enc]|] eqn:Hk.
    2:{ split; [exact Hsame|].
        split; [intros cb' Hcb'; apply registered_snoc, Hcb, Hcb'|].
        split; [now apply pending_snoc|exact Hreq']. }
    cbn [EmbeddedFacade.sdk EmbeddedFacade.suspended EmbeddedFacade.requests].
    split; [exact Hsame|].
    split; [intros cb' Hcb'; apply registered_snoc, Hcb, Hcb'|].
    split; [apply pending_snoc, pending_delete, Hpend|].
    intros cb req Hin. apply in_app_or in Hin as [Hin|Hin];
      [now apply Hreq'|].
    rewrite (read_payload_same _ _ _ _ Hsame) in Hin.
    destruct (read_payload codec sdk0 enc) as [e|msg] eqn:Hread; [destruct Hin|].
    destruct (String.eqb_spec (e_type msg) "offer") as [Ht|_]; [|destruct Hin].
    destruct (_helpCb (EmbeddedFacade.sdk f)) as [cb0|] eqn:Hcb0;
      [|destruct Hin].
    destruct (EmbeddedFacade.new_request (EmbeddedFacade.sdk f) sender msg)
      as [e|req0] eqn:Hnew; [destruct Hin|].
    destruct Hin as [[= <- <-]|[]].
    destruct (new_request_ok _ _ _ _ Hsame Hnew) as (-> & -> & Hkey).
    split; [apply registered_snoc, Hcb; reflexivity|].
    split; [|exact Hkey].
    apply offered_snoc. exists enc.
    split; [exact (pending_lookup _ _ _ _ _ _ Hpend Hk)|now split].
Qed.

Lemma embedded_run_snoc f inputs i :
  EmbeddedFacade.run codec f (inputs ++ [i]) =
  EmbeddedFacade.step codec (EmbeddedFacade.run codec f inputs) i.
Proof. unfold EmbeddedFacade.run. now rewrite fold_left_app. Qed.

Lemma embedded_listener_inv_run inputs :
  embedded_listener_inv codec sdk0 inputs
    (EmbeddedFacade.run codec (EmbeddedFacade.start sdk0) inputs).
Proof.
  induction inputs as [|i inputs IH] using rev_ind.
  - split; [repeat split|]. split; [intros cb H; now left|].
    split; [intros s e []|intros cb req []].
  - rewrite embedded_run_snoc. now apply embedded_listener_inv_step.
Qed.

(** X13. In the embedded SDK, where the constructor of [RequestForHelp]
    looks the sender's key up, every request handed to a help callback has
    a sender that is in the directory and carries the directory's,
    non-empty, key; an offer from any other sender is dropped. *)
Theorem embedded_requests_have_a_known_sender :
  forall (inputs : list Facade.Input) (cb : Callback)
         (req : EmbeddedFacade.RequestForHelp),
    In (cb, req)
       (EmbeddedFacade.requests
          (EmbeddedFacade.run codec (EmbeddedFacade.start sdk0) inputs)) ->
    peerPublicKeys sdk0 !! EmbeddedFacade.sender req =
      Some (EmbeddedFacade.publicKey req) /\
    EmbeddedFacade.publicKey req <> EmptyString /\
    exists enc,
      In (Facade.Delivered (EmbeddedFacade.sender req) (wallet_address sdk0)
            (Some enc)) inputs /\
      read_payload codec sdk0 enc = inr (EmbeddedFacade.offer req) /\
      e_type (EmbeddedFacade.offer req) = "offer".
Proof.
  intros inputs cb req Hin.
  destruct (embedded_listener_inv_run inputs) as (_ & _ & _ & H).
  destruct (H cb req Hin) as (_ & Hoff & Hkey & Hne). auto.
Qed.

End EmbeddedListenerFacts.

(** ** [accept()] of the embedded SDK *)

Section EmbeddedAcceptFacts.
Import EmbeddedInbound.
Variable sdk : Sdk.
Variable req : Inbound.RequestForHelp.

Lemma inbound_request_step n ev :
  Inbound.request (Inbound.step sdk n ev) = Inbound.request n.
Proof.
  destruct ev; cbn [Inbound.step]; try reflexivity.
  all: unfold Inbound.begin_send, Inbound.after_send, Inbound.next_candidate,
         _sendSignal, send_step, local_sdp.
  all: repeat match goal with
       | |- context [match ?x with _ => _ end] => destruct x eqn:?
       | |- context [if ?b then _ else _] => destruct b eqn:?
       end; reflexivity.
Qed.

Ltac inbound_cases :=
  unfold Inbound.begin_send, Inbound.after_send, Inbound.next_candidate,
    _sendSignal, send_step, local_sdp;
  repeat match goal with
  | |- context [match ?x with _ => _ end] => destruct x eqn:?
  | |- context [if ?b then _ else _] => destruct b eqn:?
  end;
  cbn [Inbound.control Inbound.actions Inbound.request Inbound.call
       Inbound.with_control Inbound.with_pc Inbound.with_candidates fst snd]
    in *.

Lemma inbound_returned_step n ev :
  Inbound.control n = Inbound.Returned ->
  Inbound.control (Inbound.step sdk n ev) = Inbound.Returned.
Proof.
  intros H. destruct ev; cbn [Inbound.step]; rewrite ?H; try exact H.
  all: inbound_cases; congruence.
Qed.

Lemma inbound_threw_step n ev e :
  Inbound.control n = Inbound.Threw e ->
  Inbound.control (Inbound.step sdk n ev) = Inbound.Threw e.
Proof.
  intros H. destruct ev; cbn [Inbound.step]; rewrite ?H; try exact H.
  all: inbound_cases; congruence.
Qed.

Lemma inbound_returns_from_send n ev :
  Inbound.control (Inbound.step sdk n ev) = Inbound.Returned ->
  Inbound.control n = Inbound.Returned \/
  exists s, Inbound.control n = Inbound.AwaitSendSignal s.
Proof.
  destruct (Inbound.control n) eqn:Hc; eauto.
  all: destruct ev; cbn [Inbound.step]; rewrite ?Hc; try congruence.
  all: inbound_cases; congruence.
Qed.

Lemma inbound_actions_step n ev :
  ev <> DataChannelOpen ->
  List.filter
    (fun x => match x with CallNotifyStreamOpen _ => true | _ => false end)
    (Inbound.actions (Inbound.step sdk n ev)) =
  List.filter
    (fun x => match x with CallNotifyStreamOpen _ => true | _ => false end)
    (Inbound.actions n).
Proof.
  intros Hev. destruct ev; cbn [Inbound.step]; try reflexivity;
    try congruence.
  all: inbound_cases; rewrite ?List.filter_app, ?app_nil_r; reflexivity.
Qed.

Lemma step_resumed a ev :
  ev <> DataChannelOpen -> ev <> TimerExpired ->
  step sdk a ev = resumed sdk a ev.
Proof. intros H1 H2. destruct ev; try reflexivity; congruence. Qed.

Ltac accept_fields :=
  cbn [negotiation p2pPromise timeout closed uncaught delivered
       with_negotiation with_timeout deliver Inbound.request Inbound.call
       Inbound.control Inbound.actions Inbound.pc] in *.

Lemma timeout_inv_resumed a ev :
  ev <> DataChannelOpen ->
  timeout_inv req a -> timeout_inv req (resumed sdk a ev).
Proof.
  intros Hev [Hreq H].
  pose proof (inbound_request_step (negotiation a) ev) as Er.
  pose proof (inbound_actions_step (negotiation a) ev Hev) as En.
  pose proof (inbound_returns_from_send (negotiation a) ev) as Hret.
  pose proof (inbound_returned_step (negotiation a) ev) as Hkeep.
  pose proof (inbound_threw_step (negotiation a) ev) as Hthrew.
  unfold resumed, timeout_inv, notifications in *.
  destruct (timeout a) eqn:Ht.
  - (* no timer yet *)
    destruct H as (Hp & Hcl & Hn & Hd).
    destruct (Inbound.control (negotiation a)) eqn:Hc; try contradiction.
    all: try specialize (Hthrew _ eq_refl).
    all: destruct (Inbound.control (Inbound.step sdk (negotiation a) ev))
           eqn:Hc'; accept_fields; rewrite ?Hp; accept_fields;
         rewrite ?Ht, ?Hc', ?Er, ?En, ?Hd.
    all: try (destruct (Hret eq_refl) as [?|[? ?]]; discriminate).
    all: try (repeat split; try assumption; try reflexivity; congruence).
  - destruct H as (Hc & H). specialize (Hkeep Hc).
    rewrite Hc, Hkeep. accept_fields. rewrite Ht, Hkeep, Er, En.
    split; [exact Hreq|]. split; [reflexivity|exact H].
  - destruct H as (Hc & H). specialize (Hkeep Hc).
    rewrite Hc, Hkeep. accept_fields. rewrite Ht, Hkeep, Er, En.
    split; [exact Hreq|]. split; [reflexivity|exact H].
  - destruct H as (Hc & H). specialize (Hkeep Hc).
    rewrite Hc, Hkeep. accept_fields. rewrite Ht, Hkeep, Er.
    split; [exact Hreq|]. split; [reflexivity|exact H].
Qed.

Lemma timeout_inv_step a ev :
  timeout_inv req a -> timeout_inv req (step sdk a ev).
Proof.
  intros H.
  destruct ev;
    try (rewrite step_resumed by discriminate;
         apply timeout_inv_resumed; [discriminate|exact H]).
  - (* the channel opens *)
    cbn [step].
    destruct (remoteDescription (Inbound.pc (negotiation a))); [|exact H].
    destruct H as [Hreq H].
    unfold onopen, settle, returned, timeout_inv, notifications, the_stream
      in *.
    destruct (timeout a) eqn:Ht; accept_fields; destruct_and?.
    all: repeat match goal with
         | E : p2pPromise _ = _ |- _ => rewrite E
         | E : Inbound.control _ = _ |- _ => rewrite E
         end; accept_fields;
         rewrite ?Ht, ?List.filter_app; cbn [List.filter].
    all: repeat split; try assumption; try congruence.
    all: try (intros E; apply app_eq_nil in E as [_ E]; discriminate).
    all: repeat match goal with
         | E : delivered _ = _ |- _ => rewrite E
         end; rewrite ?Hreq; reflexivity.
  - (* the timer fires *)
    cbn [step]. destruct (timeout a) eqn:Ht; try exact H.
    destruct H as [Hreq H]. rewrite Ht in H.
    destruct H as (Hc & Hp & Hd & Hcl & Hn).
    unfold ontimeout, settle, returned, timeout_inv; accept_fields.
    rewrite Hp, Hc; accept_fields. rewrite Hd, Hc. now repeat split.
Qed.

Lemma accept_run_preserves (P : t -> Prop) :
  (forall a ev, P a -> P (step sdk a ev)) ->
  forall evs a, P a -> P (run sdk a evs).
Proof.
  intros Hstep evs. induction evs as [|ev evs IH]; intros a Ha; [exact Ha|].
  apply IH, Hstep, Ha.
Qed.

Lemma timeout_inv_run evs : timeout_inv req (run sdk (accept req) evs).
Proof.
  apply accept_run_preserves; [apply timeout_inv_step|].
  repeat split.
Qed.

(** X14. The embedded [accept] settles at most once, in one of three
    ways: with a [DataStream] for the sender, the timer cleared, the
    connection left open and the stream notified; with [HelpAcceptTimeout],
    the timer fired and the connection closed; or with the error thrown
    before the timer was set.  As long as the timer is not set, no stream
    is notified or resolved, however often the channel opens. *)
Theorem embedded_accept_outcomes :
  forall (evs : list Event),
    let a := run sdk (accept req) evs in
    length (delivered a) <= 1 /\
    (forall s, resolution a = Some (Resolved s) ->
       s = DataStream.new (Inbound.sender req) /\
       timeout a = Cleared /\ closed a = false /\ notifications a <> []) /\
    (resolution a = Some (Rejected HelpAcceptTimeout) ->
       timeout a = Fired /\ closed a = true) /\
    (forall e, resolution a = Some (Rejected (Thrown e)) ->
       Inbound.control (negotiation a) = Inbound.Threw e /\
       timeout a = Undeclared /\ closed a = false /\ notifications a = []) /\
    (timeout a = Undeclared ->
       p2pPromise a = None /\ notifications a = []).
Proof.
  intros evs a. pose proof (timeout_inv_run evs) as [_ H]. fold a in H.
  unfold resolution, the_stream in *.
  destruct (timeout a); destruct_and?.
  2-4: repeat match goal with E : delivered _ = _ |- _ => rewrite E end;
       cbn [length last]; repeat split; try lia; try congruence;
       intros; simplify_eq; auto.
  destruct (Inbound.control (negotiation a)) eqn:Hc; try contradiction.
  all: repeat match goal with E : delivered _ = _ |- _ => rewrite E end;
       cbn [length last]; repeat split; try lia; try congruence;
       intros; simplify_eq; auto.
Qed.

Lemma settled_is_final a ev :
  timeout_inv req a -> p2pPromise a <> None ->
  delivered (step sdk a ev) = delivered a /\
  closed (step sdk a ev) = closed a /\
  p2pPromise (step sdk a ev) = p2pPromise a.
Proof.
  intros [Hreq H] Hp.
  assert (Hc : Inbound.control (negotiation a) = Inbound.Returned).
  { destruct (timeout a); destruct_and?; congruence. }
  destruct ev; try rewrite step_resumed by discriminate.
  all: try (unfold resumed;
            rewrite Hc, (inbound_returned_step _ _ Hc); now cbn).
  - cbn [step].
    destruct (remoteDescription (Inbound.pc (negotiation a)));
      [|repeat split].
    unfold onopen, settle.
    destruct (timeout a); destruct_and?; try congruence; accept_fields.
    all: destruct (p2pPromise a) eqn:E; [|congruence].
    all: repeat split; accept_fields; exact E.
  - cbn [step]. destruct (timeout a); destruct_and?; try (repeat split; fail).
    congruence.
Qed.

Lemma settled_is_final_run a evs :
  timeout_inv req a -> p2pPromise a <> None ->
  delivered (run sdk a evs) = delivered a /\
  closed (run sdk a evs) = closed a.
Proof.
  revert a. induction evs as [|ev evs IH]; intros a Hinv Hp; [easy|].
  cbn [run fold_left]. fold (run sdk (step sdk a ev) evs).
  destruct (settled_is_final a ev Hinv Hp) as (Hd & Hc & Hp').
  destruct (IH (step sdk a ev)) as [Hd' Hc'];
    [now apply timeout_inv_step|congruence|].
  split; congruence.
Qed.

Lemma remote_given_step n ev :
  remote_given n -> remote_given (Inbound.step sdk n ev).
Proof.
  unfold remote_given. intros H.
  destruct ev; cbn [Inbound.step]; try exact H.
  all: destruct (Inbound.control n) eqn:Hc; try exact H.
  all: inbound_cases; rewrite ?Hc;
       cbn [Inbound.pc Inbound.with_pc Inbound.call Inbound.with_control
            Inbound.with_candidates remoteDescription set_remote set_local
            set_gathering add_remote_candidate];
       try exact H; try exact I; try discriminate; try congruence.
Qed.

Lemma remote_given_embedded a ev :
  remote_given (negotiation a) -> remote_given (negotiation (step sdk a ev)).
Proof.
  intros H.
  destruct ev; try rewrite step_resumed by discriminate.
  all: try (match goal with
            | |- remote_given (negotiation (resumed _ _ ?e)) =>
                pose proof (remote_given_step _ e H)
            end;
            unfold resumed;
            repeat match goal with
            | |- context [match ?x with _ => _ end] => destruct x eqn:?
            end; accept_fields; assumption).
  - cbn [step]. destruct (remoteDescription _); [|exact H].
    unfold onopen, settle, returned.
    repeat match goal with
    | |- context [match ?x with _ => _ end] => destruct x eqn:?
    end; accept_fields; exact H.
  - cbn [step]. unfold ontimeout, settle, returned.
    repeat match goal with
    | |- context [match ?x with _ => _ end] => destruct x eqn:?
    end; accept_fields; exact H.
Qed.

Lemma remote_given_run evs :
  remote_given (negotiation (run sdk (accept req) evs)).
Proof.
  apply (accept_run_preserves (fun a => remote_given (negotiation a)));
    [apply remote_given_embedded|exact I].
Qed.

(** X15. Once the embedded [accept] has set its timer, the first of the
    timer and the channel decides, for good: the timer gives
    [HelpAcceptTimeout] and closes the connection; the channel gives the
    stream and leaves it open. *)
Theorem embedded_accept_first_event_decides :
  forall (evs1 evs2 : list Event),
    timeout (run sdk (accept req) evs1) = Armed ->
    (let a := run sdk (accept req) (evs1 ++ TimerExpired :: evs2) in
     delivered a = [Rejected HelpAcceptTimeout] /\ closed a = true) /\
    (let a := run sdk (accept req) (evs1 ++ DataChannelOpen :: evs2) in
     delivered a = [Resolved (DataStream.new (Inbound.sender req))] /\
     closed a = false).
Proof.
  intros evs1 evs2 Ht. unfold run. rewrite !fold_left_app.
  fold (run sdk (accept req) evs1).
  pose proof (timeout_inv_run evs1) as Hinv.
  pose proof (remote_given_run evs1) as Hrem.
  set (a1 := run sdk (accept req) evs1) in *.
  cbn [fold_left].
  pose proof (timeout_inv_step a1 TimerExpired Hinv) as Hf.
  pose proof (timeout_inv_step a1 DataChannelOpen Hinv) as Ho.
  destruct Hinv as [Hreq H]. rewrite Ht in H.
  destruct H as (Hc & Hp & Hd & Hcl & Hn).
  split.
  - fold (run sdk (step sdk a1 TimerExpired) evs2).
    assert (E : step sdk a1 TimerExpired = ontimeout a1)
      by (cbn [step]; now rewrite Ht).
    rewrite E in *. clear E.
    assert (Hp' : p2pPromise (ontimeout a1) <> None).
    { unfold ontimeout, settle, returned; accept_fields.
      rewrite Hp, Hc. discriminate. }
    destruct (settled_is_final_run _ evs2 Hf Hp') as [-> ->].
    unfold ontimeout, settle, returned; accept_fields.
    rewrite Hp, Hc; accept_fields. now rewrite Hd.
  - fold (run sdk (step sdk a1 DataChannelOpen) evs2).
    assert (E : step sdk a1 DataChannelOpen = onopen a1).
    { cbn [step]. unfold remote_given in Hrem. rewrite Hc in Hrem.
      now destruct (remoteDescription (Inbound.pc (negotiation a1))). }
    rewrite E in *. clear E.
    assert (Hp' : p2pPromise (onopen a1) <> None).
    { unfold onopen, settle, returned. rewrite Ht; accept_fields.
      rewrite Hp, Hc. discriminate. }
    destruct (settled_is_final_run _ evs2 Ho Hp') as [-> ->].
    unfold onopen, settle, returned. rewrite Ht; accept_fields.
    rewrite Hp, Hc; accept_fields. now rewrite Hd, Hreq.
Qed.

End EmbeddedAcceptFacts.

(** ** [FakeContract] *)

Section FakeContractFacts.
Import FakeContract.
Variable l : Listener.

Lemma prefix_app_same (p s t : string) :
  String.prefix (p +:+ s) (p +:+ t) = String.prefix s t.
Proof.
  induction p as [|a p IH]; [reflexivity|].
  change (String.prefix (String a (p +:+ s)) (String a (p +:+ t)) =
          String.prefix s t).
  cbn [String.prefix]. rewrite IH.
  destruct (Ascii.ascii_dec a a); [reflexivity|congruence].
Qed.

Lemma prefix_eqb (s t : string) :
  String.eqb s t = true -> forall p, String.prefix p s = String.prefix p t.
Proof. intros H p. apply String.eqb_eq in H. now subst. Qed.

(** No emission is named as a wildcard filter is. *)
Lemma emission_not_wildcard (sender to : Arg) :
  sender = Undefined \/ is_address sender = true ->
  wildcard (SignalSent sender to) = false.
Proof.
  unfold wildcard, SignalSent.
  change "SignalSent:null:" with ("SignalSent:" +:+ "null:").
  rewrite prefix_app_same.
  intros [->|H]; [reflexivity|].
  destruct sender as [| |s]; try discriminate. cbn [is_address] in H.
  destruct s as [|a s]; [discriminate|]. cbn [to_string].
  change (String.prefix "null:" (String a (s +:+ ":" +:+ to_string to)) =
          false).
  cbn [String.prefix] in H |- *.
  destruct (Ascii.ascii_dec "0" a) as [<-|_]; [|discriminate].
  destruct (Ascii.ascii_dec "n" "0"); [discriminate|reflexivity].
Qed.

Lemma wildcard_inv_step c op :
  wildcard_only l op -> wildcard_inv l c -> wildcard_inv l (step c op).
Proof.
  intros Hop (Hs & Hr & Hi).
  destruct op as [address|to data|filter l'|filter l'|filter l'|];
    cbn [step wildcard_only] in *.
  - split; [now right|]. split; assumption.
  - split; [exact Hs|]. split; assumption.
  - split; [exact Hs|]. split; [|exact Hi].
    intros r Hin Hl. cbn in Hin. apply in_app_or in Hin as [Hin|[<-|[]]];
      [now apply Hr|]. cbn in *. now apply Hop.
  - split; [exact Hs|]. split; [|exact Hi].
    intros r Hin Hl. cbn in Hin. apply in_app_or in Hin as [Hin|[<-|[]]];
      [now apply Hr|]. cbn in *. now apply Hop.
  - split; [exact Hs|]. split; [|exact Hi].
    intros r Hin Hl. cbn in Hin. apply Hr; [|exact Hl].
    apply in_rev in Hin. apply in_rev.
    revert Hin. generalize (rev (registrations c)). intros rs.
    induction rs as [|r0 rs IH]; [easy|]. cbn [remove_first].
    destruct (is_for filter l' r0); [now right|].
    intros [<-|Hin]; [now left|right; now apply IH].
  - unfold tick. destruct (ticks c) as [|[to data] rest];
      [split; [exact Hs|split; assumption]|].
    unfold emit. cbn [_sender registrations ticks invoked].
    split; [exact Hs|]. split.
    + intros r Hin. apply filter_In in Hin as [Hin _]. now apply Hr.
    + intros i Hin. apply in_app_or in Hin as [Hin|Hin]; [now apply Hi|].
      apply in_map_iff in Hin as (r & <- & Hin).
      apply filter_In in Hin as [Hin Hname]. cbn [i_listener].
      intros Hl. specialize (Hr r Hin Hl).
      pose proof (emission_not_wildcard (_sender c) to Hs) as Hne.
      unfold wildcard in *.
      rewrite (prefix_eqb _ _ Hname) in Hr. congruence.
Qed.

(** X16. On a [FakeContract], whose filters are strings compared
    whole, a listener registered only under filters with a [null] sender
    (as the persistent listener of the SDK is) is never invoked,
    whatever is sent by signers whose addresses begin with [0x]. *)
Theorem fake_contract_wildcard_listener_never_fires :
  forall (ops : list Op),
    Forall (wildcard_only l) ops ->
    forall i, In i (invoked (run new ops)) -> i_listener i <> l.
Proof.
  intros ops Hops.
  enough (H : wildcard_inv l (run new ops)) by apply H.
  assert (G : forall c, wildcard_inv l c -> wildcard_inv l (run c ops)).
  { induction Hops as [|op ops Hop _ IH]; intros c Hc; [exact Hc|].
    apply IH, wildcard_inv_step; assumption. }
  apply G. split; [now left|]. split; [intros r []|intros i []].
Qed.

End FakeContractFacts.

(** ** The relay over a sequence of transactions *)

Section ChainFacts.
Import SignalServer Chain.

Lemma apply_accepted s tx :
  apply s tx = if accepted tx then (fst s, snd s ++ [event_of tx]) else s.
Proof.
  unfold apply, accepted, sendSignal, event_of.
  destruct (tx_to tx =? 0)%N; [reflexivity|].
  destruct (tx_data tx) as [|b d]; reflexivity.
Qed.

Lemma execute_from s txs :
  fold_left apply txs s =
  (fst s, snd s ++ map event_of (List.filter accepted txs)).
Proof.
  revert s. induction txs as [|tx txs IH]; intros s.
  - cbn. rewrite app_nil_r. now destruct s.
  - cbn [fold_left List.filter]. rewrite IH, apply_accepted.
    destruct (accepted tx); cbn [fst snd map]; [|reflexivity].
    now rewrite <- app_assoc.
Qed.

(** X17. The event log of the relay after a sequence of transactions is
    the accepted ones (recipient not zero, payload not empty) in their
    order, each with its caller, recipient and payload; reverted
    transactions leave no trace and later ones only append. *)
Theorem relay_log_is_the_accepted_submissions :
  forall (txs : list Tx),
    snd (execute txs) = map event_of (List.filter accepted txs) /\
    forall (more : list Tx),
      exists later, snd (execute (txs ++ more)) = snd (execute txs) ++ later.
Proof.
  intros txs. unfold execute. rewrite execute_from. cbn [fst snd app].
  split; [reflexivity|]. intros more.
  rewrite execute_from. cbn [fst snd app].
  rewrite List.filter_app, map_app. eauto.
Qed.

End ChainFacts.

(** ** Construction *)



Section NoIdentity.
Variable codec : Codec.

(** X19. [sdk/SignalServerSDK.js] stores [encryptionIdentity] as given:
    on an instance constructed without one, the listener throws on
    [this.identity.privateKey] for every event, and no request is ever
    handed to a help callback. *)
Theorem listener_without_identity_hands_out_nothing :
  forall (opts : Options) (sdk : Sdk) (inputs : list Facade.Input),
    outcome (SignalServerSdk.constructor opts) = inr sdk ->
    opt_encryptionIdentity opts = None ->
    Facade.requests (Facade.run codec (Facade.start sdk) inputs) = [].
Proof.
  intros opts sdk inputs Hc Hid.
  assert (Hnone : identity sdk = None).
  { unfold SignalServerSdk.constructor in Hc.
    destruct (opt_wallet opts); [|discriminate].
    cbn in Hc. injection Hc as <-. exact Hid. }
  destruct (listener_inv_run codec sdk inputs) as (_ & _ & _ & H).
  destruct (Facade.requests (Facade.run codec (Facade.start sdk) inputs))
    as [|[cb req] l]; [reflexivity|].
  destruct (H cb req (or_introl eq_refl)) as [_ (enc & _ & Hread & _)].
  unfold read_payload in Hread. rewrite Hnone in Hread. discriminate.
Qed.

End NoIdentity.

Lemma listener_without_identity_hands_out_nothing_witness :
  Facade.requests
    (Facade.run toy
       (Facade.start
          {| wallet_address := "0xB0b"; identity := None;
             peerPublicKeys := ∅; timeoutMs := 20000%N;
             _helpCb := None; _streamCb := None |})
       [Facade.OnHelpRequest 1; alices_offer; Facade.Resumed 0]) = [].
Proof.
  apply (listener_without_identity_hands_out_nothing toy
           {| opt_wallet := Some "0xB0b"; opt_encryptionIdentity := None;
              opt_peerPublicKeys := None; opt_timeoutMs := None |});
    reflexivity.
Defined.

(** ** [accept] for a sender the directory does not have *)

Section UnknownSenderFacts.
Import Inbound.
Variable sdk : Sdk.

Lemma forallb_snoc_engine l a :
  forallb is_engine_call l = true -> is_engine_call a = true ->
  forallb is_engine_call (l ++ [a]) = true.
Proof. intros H1 H2. rewrite forallb_app, H1. cbn. now rewrite H2. Qed.

Lemma unknown_sender_inv_step a ev :
  peerPublicKeys sdk !! sender (request a) = None ->
  unknown_sender_inv a -> unknown_sender_inv (step sdk a ev).
Proof.
  intros Hunk [Hacts Hc].
  assert (Hget : _getPeerPubKey sdk (sender (request a)) =
                 inl (NoPublicKeyForPeer (sender (request a)))).
  { unfold _getPeerPubKey. now rewrite Hunk. }
  unfold unknown_sender_inv.
  destruct (control a) eqn:Hctl; try contradiction.
  all: destruct ev; cbn [step]; rewrite ?Hctl; try (split; [exact Hacts|];
         rewrite ?Hctl; exact I).
  all: unfold begin_send, after_send, next_candidate, _sendSignal,
         local_sdp;
       cbn [request pc actions control candidates with_pc with_control
            with_candidates call localDescription set_local set_gathering
            set_remote add_remote_candidate fst snd];
       rewrite ?Hget.
  all: repeat match goal with
       | |- context [match ?x with _ => _ end] => destruct x eqn:?
       | |- context [if ?b then _ else _] => destruct b eqn:?
       end;
       cbn [request pc actions control candidates with_pc with_control
            with_candidates call localDescription set_local set_gathering
            set_remote add_remote_candidate fst snd after_send];
       rewrite ?Hctl, ?app_nil_r.
  all: try (split; [first [exact Hacts|now apply forallb_snoc_engine]|exact I]).
  all: exfalso;
       cbn [control with_control call with_pc with_candidates fst snd] in *;
       congruence.
Qed.

(** X20. [accept] on a request whose sender is not in the directory
    never calls the cipher or the relay, whatever the engine does, and
    never returns. *)
Theorem accept_unknown_sender_sends_nothing :
  forall (req : RequestForHelp) (evs : list Event),
    peerPublicKeys sdk !! sender req = None ->
    let a := run sdk (accept req) evs in
    submissions (actions a) = [] /\
    forallb is_engine_call (actions a) = true /\
    control a <> Returned.
Proof.
  intros req evs Hunk a.
  assert (H : request a = req /\ unknown_sender_inv a).
  { unfold a, run.
    assert (G : forall a0, request a0 = req /\ unknown_sender_inv a0 ->
              request (fold_left (step sdk) evs a0) = req /\
              unknown_sender_inv (fold_left (step sdk) evs a0)).
    { induction evs as [|ev evs IH]; intros a0 [Hr Hi]; [now split|].
      cbn [fold_left]. apply IH. split.
      - now rewrite inbound_request_step.
      - apply unknown_sender_inv_step; [now rewrite Hr|exact Hi]. }
    apply G. split; [reflexivity|]. split; [reflexivity|exact I]. }
  destruct H as [_ [Hacts Hc]].
  split; [|split; [exact Hacts|]].
  - clear -Hacts. unfold submissions.
    induction (actions a) as [|x l IH]; [reflexivity|].
    cbn [forallb] in Hacts. apply andb_prop in Hacts as [Hx Hl].
    cbn [List.filter]. destruct x; try discriminate; cbn; auto.
  - intros E. now rewrite E in Hc.
Qed.

End UnknownSenderFacts.

(** ** [requestHelp] on an instance without an encryption identity *)

Section OutboundNoIdentity.
Import Outbound.
Variable codec : Codec.
Variable sdk : Sdk.


End OutboundNoIdentity.


(** ** The theorems above on the toy world *)

Lemma help_requests_come_from_offers_witness :
  (_helpCb bob = Some 1 \/
   In (Facade.OnHelpRequest 1)
      [Facade.OnHelpRequest 1; alices_offer; Facade.Resumed 0]) /\
  exists enc,
    In (Facade.Delivered (Inbound.sender alices_request) (wallet_address bob)
          (Some enc))
       [Facade.OnHelpRequest 1; alices_offer; Facade.Resumed 0] /\
    read_payload toy bob enc = inr (Inbound.offer alices_request) /\
    e_type (Inbound.offer alices_request) = "offer".
Proof.
  apply (help_requests_come_from_offers toy bob
           [Facade.OnHelpRequest 1; alices_offer; Facade.Resumed 0]
           1 alices_request).
  vm_compute. left. reflexivity.
Defined.

Lemma embedded_requests_have_a_known_sender_witness :
  peerPublicKeys bob !! "0xA11ce" = Some "alice".
Proof.
  apply (embedded_requests_have_a_known_sender toy bob
           [Facade.OnHelpRequest 1; alices_offer; Facade.Resumed 0] 1
           {| EmbeddedFacade.sender := "0xA11ce";
              EmbeddedFacade.offer := toy_offer;
              EmbeddedFacade.publicKey := "alice" |}).
  vm_compute. left. reflexivity.
Defined.

Lemma embedded_accept_first_event_decides_witness :
  EmbeddedInbound.delivered
    (EmbeddedInbound.run bob (EmbeddedInbound.accept alices_request)
       (bob_accepts ++ DataChannelOpen :: [TimerExpired])) =
    [EmbeddedInbound.Resolved (DataStream.new "0xA11ce")] /\
  EmbeddedInbound.closed
    (EmbeddedInbound.run bob (EmbeddedInbound.accept alices_request)
       (bob_accepts ++ DataChannelOpen :: [TimerExpired])) = false.
Proof.
  apply (embedded_accept_first_event_decides bob alices_request bob_accepts
           [TimerExpired]).
  vm_compute. reflexivity.
Defined.

Lemma fake_contract_wildcard_listener_never_fires_witness :
  FakeContract.i_listener
    {| FakeContract.i_listener := 2;
       FakeContract.i_sender := FakeContract.Str "0xB0b";
       FakeContract.i_recipient := FakeContract.Str "0xB0b";
       FakeContract.i_data := [] |} <> 1.
Proof.
  apply (fake_contract_wildcard_listener_never_fires 1
           [ FakeContract.Connect (FakeContract.Str "0xA11ce");
             FakeContract.Connect (FakeContract.Str "0xB0b");
             FakeContract.On
               (FakeContract.SignalSent FakeContract.Null
                  (FakeContract.Str "0xB0b")) 1;
             FakeContract.On
               (FakeContract.SignalSent (FakeContract.Str "0xB0b")
                  (FakeContract.Str "0xB0b")) 2;
             FakeContract.SendSignal (FakeContract.Str "0xB0b") [];
             FakeContract.Tick ]).
  - repeat constructor; cbn; try reflexivity; intros; try reflexivity;
      discriminate.
  - vm_compute. left. reflexivity.
Defined.

Lemma accept_unknown_sender_sends_nothing_witness :
  submissions
    (Inbound.actions
       (Inbound.run alice
          (Inbound.accept
             {| Inbound.sender := "0xCar01"; Inbound.offer := toy_offer |})
          bob_accepts)) = [].
Proof.
  apply (accept_unknown_sender_sends_nothing alice
           {| Inbound.sender := "0xCar01"; Inbound.offer := toy_offer |}
           bob_accepts).
  vm_compute. reflexivity.
Defined.
